(** * Synthetic benchmark networks: a shallow embedding of [python/benchmark.py]

    The benchmark script builds random connected grids with
    [generate_network], times PyPSA's solvers on them and writes the medians
    to a CSV file.  This development embeds the generator and the reporting
    part of the script and proves the properties the specification states
    about them.

    Modelling choices.
    - Python [int] is [Z]; Python [float] is IEEE binary64, here Rocq's
      primitive [float], so every arithmetic expression of the source is
      evaluated with the source's own rounding.
    - Python [str] is [string]; the names PyPSA is given ([f"Bus{bus}"] and
      the like) are kept as the number they are made of.
    - A NumPy [Generator] is a mutable object.  Generator objects live in a
      heap; [default_rng] allocates a new object (it refuses a negative
      seed) and [random]/[integers] update the object they are called on.
      The bit generator itself (PCG64) belongs to NumPy, not to this
      repository, and is a parameter ([BitGenerator]) of which only NumPy's
      documented contract is assumed.
    - The clock, PyPSA and the file system are a parameter as well
      ([Platform]); their calls may raise. *)

From Stdlib Require Import String ZArith List Bool Lia Floats FinFun.
From Stdlib Require Import Sorted Permutation.
Import ListNotations.

Set Warnings "-inexact-float".
Open Scope Z_scope.

(** ** Exceptions and results *)

Inductive exn : Type :=
| ValueError
| KeyError
| StatisticsError
| OSError        (* [open] on a path that cannot be written, and the like *)
| LibraryError.  (* whatever PyPSA or its solver raises *)

Inductive result (A : Type) : Type :=
| Ok (a : A)
| Raise (e : exn).

Arguments Ok {A} a.
Arguments Raise {A} e.

(** ** The random number generator *)

(** What NumPy supplies: a state, its seeding, a draw of a double and a draw of
    an integer of a half-open interval. *)
Record BitGenerator : Type := {
  rng_state : Type;
  seed_state : Z -> rng_state;
  next_double : rng_state -> float * rng_state;
  next_bounded : Z -> Z -> rng_state -> Z * rng_state
}.

(** NumPy's contract for [Generator.integers(low, high)] with [low < high]:
    the value lies in [[low, high)]. *)
Definition bounded_in_range (G : BitGenerator) : Prop :=
  forall low high s, low < high ->
    low <= fst (next_bounded G low high s) < high.

(** [Generator.random()] returns a double of [[0, 1)]. *)
Definition double_in_unit (G : BitGenerator) : Prop :=
  forall s, (0 <=? fst (next_double G s))%float = true /\
            (fst (next_double G s) <? 1)%float = true.

Module Heap.

(** Generator objects by address; [fresh] is the next free address. *)
Record t (G : BitGenerator) : Type := mk {
  objs : nat -> rng_state G;
  fresh : nat
}.

Arguments objs {G} h a : rename.
Arguments fresh {G} h : rename.

Definition empty (G : BitGenerator) : t G :=
  {| objs := fun _ => seed_state G 0; fresh := 0%nat |}.

Definition write {G} (h : t G) (a : nat) (s : rng_state G) : t G :=
  {| objs := fun b => if Nat.eqb b a then s else objs h b;
     fresh := fresh h |}.

Definition alloc {G} (h : t G) (s : rng_state G) : nat * t G :=
  (fresh h,
   {| objs := fun b => if Nat.eqb b (fresh h) then s else objs h b;
      fresh := S (fresh h) |}).

End Heap.

(** ** Computations: state passing with exceptions *)

Section Computations.

Variable St : Type.

(** A computation on a state [St] returns a value and the new state, or
    raises. *)
Definition Comp (A : Type) : Type := St -> result (A * St).

Definition ret {A} (a : A) : Comp A := fun s => Ok (a, s).

Definition bind {A B} (m : Comp A) (k : A -> Comp B) : Comp B :=
  fun s => match m s with
           | Ok (a, s') => k a s'
           | Raise e => Raise e
           end.

Definition raise {A} (e : exn) : Comp A := fun _ => Raise e.

(** [for x in xs: body], the loop's assigned variables being [acc]. *)
Fixpoint for_each {A S} (xs : list A) (body : A -> S -> Comp S) (acc : S)
  : Comp S :=
  match xs with
  | [] => ret acc
  | x :: rest => bind (body x acc) (for_each rest body)
  end.

End Computations.

Arguments ret {St A} a.
Arguments raise {St A} e.
Arguments bind {St A B} m k.
Arguments for_each {St A S} xs body acc.

Section RandomGenerator.

Variable G : BitGenerator.

(** The computations of [generate_network] run on the heap of generator
    objects. *)
Definition M (A : Type) : Type := Comp (Heap.t G) A.

(** [np.random.default_rng(seed)]: a new generator object; NumPy raises
    [ValueError] when the seed is negative. *)
Definition default_rng (seed : Z) : M nat :=
  fun h => if seed <? 0 then Raise ValueError
           else Ok (Heap.alloc h (seed_state G seed)).

(** [rng.random()]. *)
Definition random (rng : nat) : M float :=
  fun h => let (x, s) := next_double G (Heap.objs h rng) in
           Ok (x, Heap.write h rng s).

(** [int(rng.integers(low, high))]; NumPy raises [ValueError] when
    [low >= high]. *)
Definition integers (rng : nat) (low high : Z) : M Z :=
  fun h => if high <=? low then Raise ValueError
           else let (k, s) := next_bounded G low high (Heap.objs h rng) in
                Ok (k, Heap.write h rng s).

End RandomGenerator.

Declare Scope comp_scope.
Delimit Scope comp_scope with comp.
Notation "x <- m ;; k" := (bind m (fun x => k))
  (at level 61, m at next level, right associativity) : comp_scope.
Notation "' p <- m ;; k" := (bind m (fun p => k))
  (at level 61, p pattern, m at next level, right associativity) : comp_scope.

(** ** Python's [range] and [dict] *)

(** [range(lo, hi)]. *)
Definition range (lo hi : Z) : list Z :=
  map (fun k => lo + Z.of_nat k) (seq 0 (Z.to_nat (hi - lo))).

(** [range(lo, hi, step)] for a positive [step]. *)
Definition range_step (lo hi step : Z) : list Z :=
  map (fun k => lo + Z.of_nat k * step)
      (seq 0 (Z.to_nat ((hi - lo + step - 1) / step))).

(** A [dict] with integer keys: Python keeps the insertion order, and an
    assignment to a key already present keeps the key's place. *)
Definition dict (V : Type) : Type := list (Z * V).

Fixpoint dict_set {V} (d : dict V) (k : Z) (v : V) : dict V :=
  match d with
  | [] => [(k, v)]
  | (k', v') :: rest =>
      if k' =? k then (k, v) :: rest else (k', v') :: dict_set rest k v
  end.

Fixpoint dict_lookup {V} (d : dict V) (k : Z) : option V :=
  match d with
  | [] => None
  | (k', v') :: rest => if k' =? k then Some v' else dict_lookup rest k
  end.

(** [d.get(k, default)]. *)
Definition dict_get {V} (d : dict V) (k : Z) (default : V) : V :=
  match dict_lookup d k with
  | Some v => v
  | None => default
  end.

Definition dict_keys {V} (d : dict V) : list Z := map fst d.
Definition dict_values {V} (d : dict V) : list V := map snd d.

(** [not d]. *)
Definition dict_is_empty {V} (d : dict V) : bool :=
  match d with
  | [] => true
  | _ :: _ => false
  end.

(** ** [generate_network] *)

Definition line : Type := Z * Z * float.

Definition line_from (l : line) : Z := fst (fst l).
Definition line_to (l : line) : Z := snd (fst l).
Definition line_x (l : line) : float := snd l.
Definition endpoints (l : line) : Z * Z := fst l.

Definition network : Type := Z * list line * dict float * dict float.

Section Generator.

Variable G : BitGenerator.

Local Open Scope comp_scope.

(** The spanning-tree loop. *)
Definition spanning_tree (rng : nat) (n_buses : Z) (lines : list line)
  : M G (list line) :=
  for_each (range 1 n_buses)
    (fun i lines =>
       r <- random G rng;;
       let x := (0.05 + r * 0.45)%float in
       ret (lines ++ [(i, i + 1, x)]))
    lines.

(** The loop of the additional edges. *)
Definition extra_edges (rng : nat) (n_buses : Z) (lines : list line)
  : M G (list line) :=
  for_each (range 0 (Z.max 1 (n_buses / 3)))
    (fun _ lines =>
       u <- integers G rng 1 n_buses;;
       v <- integers G rng (u + 1) (n_buses + 1);;
       r <- random G rng;;
       let x := (0.05 + r * 0.45)%float in
       ret (lines ++ [(u, v, x)]))
    lines.

(** The load loop; its variables are [loads] and [total_load]. *)
Definition load_pass (rng : nat) (n_buses : Z) (acc : dict float * float)
  : M G (dict float * float) :=
  for_each (range 2 (n_buses + 1))
    (fun bus '(loads, total_load) =>
       r <- random G rng;;
       if (0.3 <? r)%float then
         r' <- random G rng;;
         let p := (50.0 + r' * 450.0)%float in
         ret (dict_set loads bus p, (total_load + p)%float)
       else ret (loads, total_load))
    acc.

(** [if not loads: loads[2] = 200.0; total_load = 200.0]. *)
Definition fallback (acc : dict float * float) : dict float * float :=
  let '(loads, total_load) := acc in
  if dict_is_empty loads then (dict_set loads 2 200.0%float, 200.0%float)
  else (loads, total_load).

(** The generator map: bus 1, then every fourth bus from bus 2. *)
Definition generator_pass (n_buses : Z) (loads : dict float)
           (total_load : float) : dict float :=
  fold_left
    (fun generators bus =>
       dict_set generators bus
                (dict_get loads bus 0.0 * 0.5 + 50.0)%float)
    (range_step 2 (n_buses + 1) 4)
    [(1, (total_load * 1.1)%float)].

Definition generate_network (n_buses : Z) (seed : Z) : M G network :=
  rng <- default_rng G seed;;
  lines <- spanning_tree rng n_buses [];;
  lines <- extra_edges rng n_buses lines;;
  acc <- load_pass rng n_buses ([], 0.0%float);;
  let '(loads, total_load) := fallback acc in
  let generators := generator_pass n_buses loads total_load in
  ret (n_buses, lines, generators, loads).

(** The load loop's result before the fallback: the run of
    [generate_network] up to [if not loads]. *)
Definition sampled_loads (n_buses : Z) (seed : Z)
  : M G (dict float * float) :=
  rng <- default_rng G seed;;
  lines <- spanning_tree rng n_buses [];;
  lines <- extra_edges rng n_buses lines;;
  load_pass rng n_buses ([], 0.0%float).

End Generator.

(** The value a run returns, the heap left out. *)
Definition outcome {St A} (r : result (A * St)) : result A :=
  match r with
  | Ok (a, _) => Ok a
  | Raise e => Raise e
  end.

(** ** A small bit generator to run the code on

    A counter: the k-th double is read from a table of eight values of
    [[0, 1)], the k-th bounded integer is [low + k mod (high - low)]. *)
Module Counter.

Definition table : list float :=
  [0.75; 0.125; 0.5; 0.875; 0.25; 0.625; 0.0; 0.375]%float.

Definition double (s : Z) : float :=
  nth (Z.to_nat (s mod 8)) table 0.0%float.

Definition gen : BitGenerator :=
  {| rng_state := Z;
     seed_state := fun seed => seed;
     next_double := fun s => (double s, s + 1);
     next_bounded := fun low high s => (low + s mod (high - low), s + 1) |}.

End Counter.

(** ** The benchmark script

    The script's platform: the wall clock, PyPSA and the file system.  PyPSA's
    network objects, the clock and the files live in a [world] the script
    cannot see into; a call into PyPSA or to the file system may raise. *)

(** What a row handed to [csv.writer] is made of. *)
Inductive cell : Type :=
| Str (s : string)
| Int (z : Z)
| Flt (x : float).

Definition row : Type := list cell.

Inductive control : Type :=
| Slack
| PQ.

(** What [Network.add] is given: [add("Bus", f"Bus{bus}", v_nom=...)],
    [add("Line", f"L{idx}", bus0=..., bus1=..., x=..., r=..., s_nom=...)],
    [add("Generator", f"G{bus}", bus=..., p_nom=..., marginal_cost=...,
    control=...)], [add("Load", f"Load{bus}", bus=..., p_set=...)]. *)
Inductive component : Type :=
| Bus (bus : Z) (v_nom : float)
| Line (idx : Z) (bus0 bus1 : Z) (x r s_nom : float)
| Generator (bus : Z) (p_nom marginal_cost : float) (ctrl : control)
| Load (bus : Z) (p_set : float).

(** [open_file path mode newline] is [open(path, mode, newline=newline)];
    [writerow f r] is [csv.writer(f).writerow(r)]; [close f] is what leaving
    the [with] block does. *)
Record Platform : Type := {
  world : Type;
  pypsa_net : Type;
  file : Type;
  perf_counter : world -> float * world;
  new_network : world -> pypsa_net * world;
  add : pypsa_net -> component -> Comp world unit;
  lpf : pypsa_net -> Comp world unit;
  optimize : pypsa_net -> Comp world unit;
  open_file : string -> string -> string -> Comp world file;
  writerow : file -> row -> Comp world unit;
  close : file -> Comp world unit
}.

(** [sorted(data)]: stable, comparing with [<]. *)
Fixpoint insert_sorted (x : float) (l : list float) : list float :=
  match l with
  | [] => [x]
  | y :: rest => if (x <? y)%float then x :: y :: rest
                 else y :: insert_sorted x rest
  end.

Definition sorted (data : list float) : list float :=
  fold_left (fun acc x => insert_sorted x acc) data [].

(** What [statistics.median] returns on data that is not empty: the middle
    value of the sorted data, or the mean of the two middle values. *)
Definition median_value (data : list float) : float :=
  let data := sorted data in
  let n := Z.of_nat (length data) in
  if n mod 2 =? 1 then nth (Z.to_nat (n / 2)) data 0.0%float
  else
    let i := n / 2 in
    ((nth (Z.to_nat (i - 1)) data 0.0 + nth (Z.to_nat i) data 0.0) / 2.0)%float.

(** [statistics.median(data)]. *)
Definition median (data : list float) : result float :=
  if Z.of_nat (length data) =? 0 then Raise StatisticsError
  else Ok (median_value data).

(** [min(data)]. *)
Definition py_min (data : list float) : result float :=
  match data with
  | [] => Raise ValueError
  | x :: rest =>
      Ok (fold_left (fun m y => if (y <? m)%float then y else m) rest x)
  end.

(** [enumerate(l)]. *)
Definition enumerate {A} (l : list A) : list (Z * A) :=
  combine (map Z.of_nat (seq 0 (length l))) l.

Definition DC_SIZES : list Z := [3; 10; 50; 100; 500; 1000; 2000].
Definition LOPF_SIZES : list Z := [3; 10; 50; 100; 500].

(** [n_runs = 50 if n <= 100 else (10 if n <= 500 else 3)]. *)
Definition dc_runs (n : Z) : Z :=
  if n <=? 100 then 50 else if n <=? 500 then 10 else 3.

(** [n_runs = 10 if n <= 50 else (5 if n <= 100 else 3)]. *)
Definition lopf_runs (n : Z) : Z :=
  if n <=? 50 then 10 else if n <=? 100 then 5 else 3.

Section Script.

Variable G : BitGenerator.
Variable P : Platform.

Local Open Scope comp_scope.

(** The script runs on the generator objects and the platform's world. *)
Definition Script (A : Type) : Type := Comp (Heap.t G * world P) A.

Definition on_heap {A} (m : M G A) : Script A :=
  fun '(h, w) => match m h with
                 | Ok (a, h') => Ok (a, (h', w))
                 | Raise e => Raise e
                 end.

Definition on_world {A} (m : Comp (world P) A) : Script A :=
  fun '(h, w) => match m w with
                 | Ok (a, w') => Ok (a, (h, w'))
                 | Raise e => Raise e
                 end.

Definition returned {A} (r : result A) : Script A :=
  fun s => match r with
           | Ok a => Ok (a, s)
           | Raise e => Raise e
           end.

(** [time.perf_counter()]. *)
Definition clock : Script float :=
  on_world (fun w => Ok (perf_counter P w)).

(** [d[k]]. *)
Definition dict_item {V} (d : dict V) (k : Z) : Script V :=
  match dict_lookup d k with
  | Some v => ret v
  | None => raise KeyError
  end.

Definition build_pypsa_network (n_buses : Z) (lines : list line)
           (generators loads : dict float) (line_capacity : float)
  : Script (pypsa_net P) :=
  n <- on_world (fun w => Ok (new_network P w));;
  _ <- for_each (range 1 (n_buses + 1))
         (fun bus _ => on_world (add P n (Bus bus 380.0%float))) tt;;
  _ <- for_each (enumerate lines)
         (fun '(idx, (f, t, x)) _ =>
            on_world (add P n (Line idx f t x 0.01%float line_capacity))) tt;;
  _ <- for_each generators
         (fun '(bus, p_max) _ =>
            let ctrl := if bus =? 1 then Slack else PQ in
            on_world (add P n (Generator bus p_max 20.0%float ctrl))) tt;;
  _ <- for_each loads
         (fun '(bus, p) _ => on_world (add P n (Load bus p))) tt;;
  ret n.

Definition time_median (func : Script unit) (n_runs : Z)
  : Script (float * float) :=
  times <- for_each (range 0 n_runs)
             (fun _ times =>
                t0 <- clock;;
                _ <- func;;
                t1 <- clock;;
                ret (times ++ [(t1 - t0)%float]))
             [];;
  med <- returned (median times);;
  mn <- returned (py_min times);;
  ret (med, mn).

(** The loop over [DC_SIZES]; its variable is [dc_results]. *)
Definition dc_benchmark : Script (dict float) :=
  for_each DC_SIZES
    (fun n dc_results =>
       '(n_buses, lines, generators, loads) <-
         on_heap (generate_network G n 42);;
       net <- build_pypsa_network n_buses lines generators loads 1e6%float;;
       let n_runs := dc_runs n in
       '(med, mn) <- time_median (on_world (lpf P net)) n_runs;;
       ret (dict_set dc_results n (med * 1000.0)%float))
    [].

(** [run_lopf], a closure over the network of the current size. *)
Definition run_lopf (n_buses : Z) (lines : list line)
           (generators loads : dict float) : Script unit :=
  net <- build_pypsa_network n_buses lines generators loads 1e6%float;;
  on_world (optimize P net).

(** The loop over [LOPF_SIZES]; its variable is [lopf_results]. *)
Definition lopf_benchmark : Script (dict float) :=
  for_each LOPF_SIZES
    (fun n lopf_results =>
       '(n_buses, lines, generators, loads) <-
         on_heap (generate_network G n 42);;
       let n_runs := lopf_runs n in
       '(med, mn) <- time_median (run_lopf n_buses lines generators loads)
                       n_runs;;
       ret (dict_set lopf_results n (med * 1000.0)%float))
    [].

(** [with open("results/python_benchmark.csv", "w", newline="") as f: ...].
    When the block raises, Python closes the file and lets the exception go
    on; here the exception goes on, and the state it leaves is not kept. *)
Definition write_csv (dc_results lopf_results : dict float) : Script unit :=
  f <- on_world (open_file P "results/python_benchmark.csv"%string
                           "w"%string EmptyString);;
  _ <- on_world (writerow P f [Str "module"%string; Str "n_buses"%string;
                               Str "time_ms"%string]);;
  _ <- for_each DC_SIZES
         (fun n _ =>
            v <- dict_item dc_results n;;
            on_world (writerow P f [Str "DC_PF"%string; Int n; Flt v]))
         tt;;
  _ <- for_each LOPF_SIZES
         (fun n _ =>
            v <- dict_item lopf_results n;;
            on_world (writerow P f [Str "LOPF"%string; Int n; Flt v]))
         tt;;
  on_world (close P f).

(** The script, its printing to standard output left out. *)
Definition benchmark : Script unit :=
  dc_results <- dc_benchmark;;
  lopf_results <- lopf_benchmark;;
  write_csv dc_results lopf_results.

End Script.

(** A platform to run the script on: the world is the number of clock ticks
    so far and the rows of the one file; the clock reads the ticks, a call
    into PyPSA takes some ticks, opening the file empties it and [writerow]
    appends to it. *)
Module Stopwatch.

Definition reading (ticks : Z) : float :=
  PrimFloat.of_uint63 (Uint63.of_Z ticks).

Definition spend (k : Z) : Comp (Z * list row) unit :=
  fun '(ticks, rows) => Ok (tt, (ticks + k, rows)).

Definition platform : Platform :=
  {| world := Z * list row;
     pypsa_net := unit;
     file := unit;
     perf_counter := fun '(ticks, rows) => (reading ticks, (ticks + 1, rows));
     new_network := fun '(ticks, rows) => (tt, (ticks + 1, rows));
     add := fun _ _ => spend 1;
     lpf := fun _ '(ticks, rows) => spend (5 + ticks mod 7) (ticks, rows);
     optimize :=
       fun _ '(ticks, rows) => spend (20 + ticks mod 11) (ticks, rows);
     open_file := fun _ _ _ '(ticks, _) => Ok (tt, (ticks, []));
     writerow := fun _ r '(ticks, rows) => Ok (tt, (ticks, rows ++ [r]));
     close := fun _ => spend 0 |}.

End Stopwatch.

(** ** Vocabulary of the specification *)

(** Endpoints in range and ordered: [1 <= from < to <= n]. *)
Definition well_oriented (n : Z) (l : line) : Prop :=
  1 <= line_from l /\ line_from l < line_to l /\ line_to l <= n.

(** The path 1 - 2 - ... - n. *)
Definition path_pairs (n : Z) : list (Z * Z) :=
  map (fun i => (i, i + 1)) (range 1 n).

(** The sum of the loads, added up in the order of the dictionary. *)
Definition total_of (loads : dict float) : float :=
  fold_left (fun s p => (s + p)%float) (dict_values loads) 0.0%float.

(** What bus [b] gets when it is one of the additional generators. *)
Definition local_capacity (loads : dict float) (b : Z) : float :=
  (dict_get loads b 0.0 * 0.5 + 50.0)%float.

(** Two buses joined by a line, in either direction. *)
Definition adjacent (lines : list line) (a b : Z) : Prop :=
  exists x, In (a, b, x) lines \/ In (b, a, x) lines.

(** Buses joined by a chain of lines. *)
Inductive connected (lines : list line) : Z -> Z -> Prop :=
| connected_refl a : connected lines a a
| connected_step a b c :
    connected lines a b -> adjacent lines b c -> connected lines a c.

(** The graph on the buses [1..n] is connected. *)
Definition connected_graph (n : Z) (lines : list line) : Prop :=
  forall a b, 1 <= a <= n -> 1 <= b <= n -> connected lines a b.

(** [times] are the durations of successive runs of [func], each the
    difference of the clock's readings after and before the run; the runs take
    the state from [s] to [s']. *)
Inductive timed_runs {St} (clock : Comp St float) (func : Comp St unit)
  : St -> list float -> St -> Prop :=
| timed_none s : timed_runs clock func s [] s
| timed_more s times s1 t0 s2 u s3 t1 s4 :
    timed_runs clock func s times s1 ->
    clock s1 = Ok (t0, s2) ->
    func s2 = Ok (u, s3) ->
    clock s3 = Ok (t1, s4) ->
    timed_runs clock func s (times ++ [(t1 - t0)%float]) s4.

(** The measurement of the DC benchmark for the size [n], from the state [s]
    to the state [s']: the network of [generate_network(n, seed=42)] is built
    once, and [times] are the durations of [dc_runs n] runs of [lpf] on it. *)
Definition dc_measurement (G : BitGenerator) (P : Platform) (n : Z)
           (s : Heap.t G * world P) (times : list float)
           (s' : Heap.t G * world P) : Prop :=
  exists lines generators loads s1 net s2,
    on_heap G P (generate_network G n 42) s
    = Ok ((n, lines, generators, loads), s1) /\
    build_pypsa_network G P n lines generators loads 1e6%float s1
    = Ok (net, s2) /\
    timed_runs (clock G P) (on_world G P (lpf P net)) s2 times s' /\
    Z.of_nat (length times) = dc_runs n.

(** The measurement of the LOPF benchmark for the size [n]: [times] are the
    durations of [lopf_runs n] runs of [run_lopf], which builds the network
    of [generate_network(n, seed=42)] anew and optimizes it. *)
Definition lopf_measurement (G : BitGenerator) (P : Platform) (n : Z)
           (s : Heap.t G * world P) (times : list float)
           (s' : Heap.t G * world P) : Prop :=
  exists lines generators loads s1,
    on_heap G P (generate_network G n 42) s
    = Ok ((n, lines, generators, loads), s1) /\
    timed_runs (clock G P) (run_lopf G P n lines generators loads)
               s1 times s' /\
    Z.of_nat (length times) = lopf_runs n.

(** One measurement after the other, for the sizes in order; the log keeps
    each size with its times. *)
Inductive measurements {St} (measure : Z -> St -> list float -> St -> Prop)
  : list Z -> St -> list (Z * list float) -> St -> Prop :=
| measurements_none s : measurements measure [] s [] s
| measurements_more sizes s log s1 n times s2 :
    measurements measure sizes s log s1 ->
    measure n s1 times s2 ->
    measurements measure (sizes ++ [n]) s (log ++ [(n, times)]) s2.

Definition fle (x y : float) : Prop := (x <=? y)%float = true.

(** [m] is the median of [data]: with the data put in ascending order, the
    middle one, or the mean of the two middle ones when their number is
    even. *)
Definition is_median (data : list float) (m : float) : Prop :=
  data <> [] /\
  exists ordered,
    Permutation data ordered /\ Sorted fle ordered /\
    let n := length ordered in
    m = if Nat.odd n then nth (n / 2)%nat ordered 0%float
        else ((nth (n / 2 - 1)%nat ordered 0 + nth (n / 2)%nat ordered 0)
              / 2)%float.

(** A row of the file: the module, the size, and a median converted from
    seconds to milliseconds. *)
Definition csv_row (module : string) (n : Z) (med : float) : row :=
  [Str module; Int n; Flt (med * 1000.0)%float].

(** [rows] are, for the entries of the log in order, the rows with the median
    of the entry's times. *)
Definition median_rows (module : string) (log : list (Z * list float))
           (rows : list row) : Prop :=
  Forall2 (fun entry r =>
             exists med, is_median (snd entry) med /\
                         r = csv_row module (fst entry) med)
          log rows.

(** The rows written to the file [f] one after the other, from the state [s]
    to the state [s']. *)
Inductive written (G : BitGenerator) (P : Platform) (f : file P)
  : list row -> Heap.t G * world P -> Heap.t G * world P -> Prop :=
| written_none s : written G P f [] s s
| written_more r rows s s1 s2 :
    on_world G P (writerow P f r) s = Ok (tt, s1) ->
    written G P f rows s1 s2 ->
    written G P f (r :: rows) s s2.

(** What a run of the script that completes has done, from [s] to [s']: the
    DC measurements, the LOPF measurements, and the file opened, written
    with the header and one row for each entry of the two logs, and
    closed. *)
Definition benchmark_run (G : BitGenerator) (P : Platform)
           (s s' : Heap.t G * world P) : Prop :=
  exists dc lopf s1 s2 f s3 dc_rows lopf_rows s4,
    measurements (dc_measurement G P) DC_SIZES s dc s1 /\
    measurements (lopf_measurement G P) LOPF_SIZES s1 lopf s2 /\
    on_world G P (open_file P "results/python_benchmark.csv"%string
                            "w"%string EmptyString) s2 = Ok (f, s3) /\
    median_rows "DC_PF" dc dc_rows /\
    median_rows "LOPF" lopf lopf_rows /\
    written G P f
            ([Str "module"%string; Str "n_buses"%string; Str "time_ms"%string]
               :: dc_rows ++ lopf_rows) s3 s4 /\
    on_world G P (close P f) s4 = Ok (tt, s').

(** [e] is raised by a call into PyPSA or to the file system. *)
Definition platform_raises (P : Platform) (e : exn) : Prop :=
  (exists net c w, add P net c w = Raise e) \/
  (exists net w, lpf P net w = Raise e) \/
  (exists net w, optimize P net w = Raise e) \/
  (exists path mode newline w, open_file P path mode newline w = Raise e) \/
  (exists f r w, writerow P f r w = Raise e) \/
  (exists f w, close P f w = Raise e).

(** The clock's readings are finite numbers. *)
Definition clock_finite (P : Platform) : Prop :=
  forall w, is_finite (fst (perf_counter P w)) = true.

(** [m] raises nothing but what satisfies [R]. *)
Definition raises_in {St A} (R : exn -> Prop) (m : Comp St A) : Prop :=
  forall s e, m s = Raise e -> R e.

(** [m] run from [s] returns a value and a state that satisfy [Q], or raises
    an exception that satisfies [R]. *)
Definition wpe {St A} (m : Comp St A) (Q : A -> St -> Prop)
           (R : exn -> Prop) (s : St) : Prop :=
  match m s with
  | Ok (a, s') => Q a s'
  | Raise e => R e
  end.

(** [m] run from [h] returns, and its value and state satisfy [Q]. *)
Definition wp {St A} (m : Comp St A) (Q : A -> St -> Prop) (h : St)
  : Prop :=
  match m h with
  | Ok (a, h') => Q a h'
  | Raise _ => False
  end.

(** * Proofs *)

(** ** Ranges *)

Lemma range_length lo hi : length (range lo hi) = Z.to_nat (hi - lo).
Proof. unfold range. now rewrite length_map, length_seq. Qed.

Lemma In_range lo hi x : In x (range lo hi) <-> lo <= x < hi.
Proof.
  unfold range. rewrite in_map_iff. split.
  - intros (k & <- & Hk). apply in_seq in Hk. lia.
  - intros Hx. exists (Z.to_nat (x - lo)). split; [lia|].
    apply in_seq. lia.
Qed.

Lemma NoDup_range lo hi : NoDup (range lo hi).
Proof.
  unfold range. apply Injective_map_NoDup; [|apply seq_NoDup].
  intros a b Hab. lia.
Qed.

Lemma range_nil lo hi : hi <= lo -> range lo hi = [].
Proof.
  intros H. unfold range. now replace (Z.to_nat (hi - lo)) with 0%nat by lia.
Qed.

Lemma range_snoc lo hi : lo <= hi -> range lo (hi + 1) = range lo hi ++ [hi].
Proof.
  intros H. unfold range.
  replace (Z.to_nat (hi + 1 - lo)) with (Z.to_nat (hi - lo) + 1)%nat by lia.
  rewrite seq_app, map_app. cbn [seq map]. do 2 f_equal. lia.
Qed.

Lemma In_range_step lo hi step b :
  0 < step ->
  In b (range_step lo hi step) <->
  exists k, 0 <= k /\ b = lo + k * step /\ b < hi.
Proof.
  intros Hs. unfold range_step. rewrite in_map_iff. split.
  - intros (k & <- & Hk). apply in_seq in Hk. exists (Z.of_nat k).
    split; [lia|]. split; [reflexivity|].
    destruct (Z_lt_le_dec (hi - lo + step - 1) 0) as [Hneg|Hpos].
    + assert ((hi - lo + step - 1) / step < 0)
        by (apply Z.div_lt_upper_bound; lia). lia.
    + assert (Z.of_nat k < (hi - lo + step - 1) / step) by lia.
      assert (step * ((hi - lo + step - 1) / step) <= hi - lo + step - 1)
        by (apply Z.mul_div_le; lia).
      nia.
  - intros (k & Hk & -> & Hlt). exists (Z.to_nat k). split; [lia|].
    apply in_seq. split; [lia|]. cbn.
    assert (k + 1 <= (hi - lo + step - 1) / step); [|lia].
    apply Z.div_le_lower_bound; [lia|nia].
Qed.

Lemma NoDup_range_step lo hi step : 0 < step -> NoDup (range_step lo hi step).
Proof.
  intros Hs. unfold range_step.
  apply Injective_map_NoDup; [|apply seq_NoDup].
  intros a b Hab. nia.
Qed.

(** ** Dictionaries *)

Lemma dict_set_new {V} (d : dict V) k v :
  ~ In k (dict_keys d) -> dict_set d k v = d ++ [(k, v)].
Proof.
  induction d as [|[k' v'] d IH]; cbn; intros Hk; [reflexivity|].
  destruct (Z.eqb_spec k' k) as [->|Hne]; [tauto|].
  rewrite IH; tauto.
Qed.

Lemma dict_lookup_app {V} (d d' : dict V) k :
  dict_lookup (d ++ d') k =
  match dict_lookup d k with
  | Some v => Some v
  | None => dict_lookup d' k
  end.
Proof.
  induction d as [|[k' v'] d IH]; cbn; [reflexivity|].
  now destruct (k' =? k).
Qed.

Lemma dict_lookup_absent {V} (d : dict V) k :
  ~ In k (dict_keys d) -> dict_lookup d k = None.
Proof.
  induction d as [|[k' v'] d IH]; cbn; intros Hk; [reflexivity|].
  destruct (Z.eqb_spec k' k) as [->|Hne]; [tauto|]. apply IH. tauto.
Qed.

Lemma dict_lookup_tabulate {V} (f : Z -> V) bs k :
  In k bs -> dict_lookup (map (fun b => (b, f b)) bs) k = Some (f k).
Proof.
  induction bs as [|b bs IH]; cbn; [tauto|].
  intros [->|Hin].
  - now rewrite Z.eqb_refl.
  - destruct (Z.eqb_spec b k) as [->|Hne]; [reflexivity|]. now apply IH.
Qed.

Lemma dict_keys_tabulate {V} (f : Z -> V) bs :
  dict_keys (map (fun b => (b, f b)) bs) = bs.
Proof.
  unfold dict_keys. rewrite map_map. cbn. apply map_id.
Qed.

(** Filling a dictionary with new, pairwise different keys appends them in
    order. *)
Lemma fold_dict_set_new {V} (f : Z -> V) bs (d : dict V) :
  NoDup bs -> (forall b, In b bs -> ~ In b (dict_keys d)) ->
  fold_left (fun g b => dict_set g b (f b)) bs d =
  d ++ map (fun b => (b, f b)) bs.
Proof.
  revert d. induction bs as [|b bs IH]; cbn; intros d Hnd Hnew.
  - now rewrite app_nil_r.
  - inversion Hnd as [|? ? Hb Hnd']; subst.
    rewrite dict_set_new by (apply Hnew; now left).
    rewrite IH; [now rewrite <- app_assoc| assumption |].
    intros c Hc. unfold dict_keys. rewrite map_app, in_app_iff. cbn.
    intros [Hin|[<-|[]]]; [|tauto].
    apply (Hnew c); [now right | exact Hin].
Qed.

(** ** A total-correctness logic for computations *)

Section Logic.

Context {St : Type}.

Lemma wp_ret {A} (a : A) (Q : A -> St -> Prop) h :
  Q a h -> wp (ret a) Q h.
Proof. exact (fun H => H). Qed.

Lemma wp_bind {A B} (m : Comp St A) (k : A -> Comp St B) Q h :
  wp m (fun a h' => wp (k a) Q h') h -> wp (bind m k) Q h.
Proof.
  unfold wp, bind. destruct (m h) as [[a h']|e]; [exact (fun H => H)|tauto].
Qed.

Lemma wp_mono {A} (m : Comp St A) (Q Q' : A -> St -> Prop) h :
  (forall a h', Q a h' -> Q' a h') -> wp m Q h -> wp m Q' h.
Proof.
  unfold wp. intros HQ. destruct (m h) as [[a h']|e]; [apply HQ|tauto].
Qed.

Lemma wp_elim {A} (m : Comp St A) Q h :
  wp m Q h -> exists a h', m h = Ok (a, h') /\ Q a h'.
Proof.
  unfold wp. destruct (m h) as [[a h']|e]; [|tauto].
  intros HQ. now exists a, h'.
Qed.

Lemma wp_intro {A} (m : Comp St A) (Q : A -> St -> Prop) h a h' :
  m h = Ok (a, h') -> Q a h' -> wp m Q h.
Proof. unfold wp. now intros ->. Qed.

(** The loop rule: the invariant speaks of the elements already visited. *)
Lemma wp_for_each {A S} (body : A -> S -> Comp St S)
      (I : list A -> S -> St -> Prop) xs :
  forall done acc h,
    I done acc h ->
    (forall pre x post acc h,
        done ++ xs = pre ++ x :: post ->
        I pre acc h -> wp (body x acc) (I (pre ++ [x])) h) ->
    wp (for_each xs body acc) (I (done ++ xs)) h.
Proof.
  induction xs as [|x xs IH]; intros done acc h Hinit Hstep; cbn.
  - apply wp_ret. now rewrite app_nil_r.
  - apply wp_bind.
    apply wp_mono with (Q := I (done ++ [x])).
    + intros acc' h' HI.
      replace (done ++ x :: xs) with ((done ++ [x]) ++ xs)
        by now rewrite <- app_assoc.
      apply IH; [exact HI|].
      intros pre y post acc0 h0 Heq. apply Hstep with (post := post).
      now rewrite <- Heq, <- app_assoc.
    + now apply (Hstep done x xs).
Qed.

End Logic.

Section GeneratorLogic.

Context {G : BitGenerator}.

Lemma wp_default_rng seed (Q : nat -> Heap.t G -> Prop) h :
  0 <= seed ->
  Q (Heap.fresh h) (snd (Heap.alloc h (seed_state G seed))) ->
  wp (default_rng G seed) Q h.
Proof.
  intros Hs HQ. unfold wp, default_rng.
  destruct (Z.ltb_spec seed 0); [lia|exact HQ].
Qed.

Lemma wp_random rng (Q : float -> Heap.t G -> Prop) h :
  (forall x h', Q x h') -> wp (random G rng) Q h.
Proof.
  intros HQ. unfold wp, random.
  destruct (next_double G (Heap.objs h rng)). apply HQ.
Qed.

Lemma wp_integers rng low high (Q : Z -> Heap.t G -> Prop) h :
  bounded_in_range G -> low < high ->
  (forall k h', low <= k < high -> Q k h') ->
  wp (integers G rng low high) Q h.
Proof.
  intros HG Hlt HQ. unfold wp, integers.
  destruct (Z.leb_spec high low); [lia|].
  specialize (HG low high (Heap.objs h rng) Hlt).
  destruct (next_bounded G low high (Heap.objs h rng)). now apply HQ.
Qed.

End GeneratorLogic.

(** ** The passes of [generate_network] *)

Lemma total_of_snoc loads k p :
  total_of (loads ++ [(k, p)]) = (total_of loads + p)%float.
Proof.
  unfold total_of, dict_values. now rewrite map_app, fold_left_app.
Qed.

Lemma generator_pass_eq n loads total :
  generator_pass n loads total =
  (1, (total * 1.1)%float)
    :: map (fun b => (b, local_capacity loads b)) (range_step 2 (n + 1) 4).
Proof.
  unfold generator_pass.
  rewrite (fold_dict_set_new (local_capacity loads)); [reflexivity| |].
  - apply NoDup_range_step. lia.
  - intros b Hb [Heq|[]]. cbn in Heq. subst b.
    apply In_range_step in Hb; [|lia]. destruct Hb as (k & ? & ? & ?). lia.
Qed.

Section Passes.

Variable G : BitGenerator.
Hypothesis G_bounded : bounded_in_range G.

Lemma spanning_tree_spec rng n lines h :
  wp (spanning_tree G rng n lines)
     (fun lines' _ =>
        exists tree, lines' = lines ++ tree /\
                     map endpoints tree = path_pairs n) h.
Proof.
  unfold spanning_tree, path_pairs.
  apply (wp_for_each
           (fun i ls => bind (random G rng) (fun r => ret
              (ls ++ [(i, i + 1, (0.05 + r * 0.45)%float)])))
           (fun pre lines' _ =>
              exists tree, lines' = lines ++ tree /\
                map endpoints tree = map (fun i => (i, i + 1)) pre)
           (range 1 n) []).
  - exists []. now rewrite app_nil_r.
  - intros pre x post acc h0 _ (tree & -> & Htree).
    apply wp_bind, wp_random. intros r h'. apply wp_ret.
    exists (tree ++ [(x, x + 1, (0.05 + r * 0.45)%float)]).
    split; [now rewrite app_assoc|].
    now rewrite !map_app, Htree.
Qed.

Lemma extra_edges_spec rng n lines h :
  2 <= n ->
  wp (extra_edges G rng n lines)
     (fun lines' _ =>
        exists extra, lines' = lines ++ extra /\
                      length extra = Z.to_nat (Z.max 1 (n / 3)) /\
                      Forall (well_oriented n) extra) h.
Proof.
  intros Hn. unfold extra_edges.
  apply wp_mono with
    (Q := fun lines' (_ : Heap.t G) =>
            exists extra, lines' = lines ++ extra /\
              length extra = length (range 0 (Z.max 1 (n / 3))) /\
              Forall (well_oriented n) extra).
  { intros ls h' (extra & ? & Hlen & ?). exists extra.
    rewrite range_length in Hlen. repeat split; try assumption.
    rewrite Hlen. f_equal. lia. }
  apply (wp_for_each
           (fun (_ : Z) ls =>
              bind (integers G rng 1 n) (fun u =>
              bind (integers G rng (u + 1) (n + 1)) (fun v =>
              bind (random G rng) (fun r =>
              ret (ls ++ [(u, v, (0.05 + r * 0.45)%float)])))))
           (fun pre lines' _ =>
              exists extra, lines' = lines ++ extra /\
                length extra = length pre /\
                Forall (well_oriented n) extra)
           (range 0 (Z.max 1 (n / 3))) []).
  - exists []. now rewrite app_nil_r.
  - intros pre x post acc h0 _ (extra & -> & Hlen & Hall).
    apply wp_bind, wp_integers; [assumption|lia|]. intros u h1 Hu.
    apply wp_bind, wp_integers; [assumption|lia|]. intros v h2 Hv.
    apply wp_bind, wp_random. intros r h3. apply wp_ret.
    exists (extra ++ [(u, v, (0.05 + r * 0.45)%float)]).
    split; [now rewrite app_assoc|].
    split; [rewrite !length_app; cbn; lia|].
    apply Forall_app. split; [assumption|].
    constructor; [|constructor]. unfold well_oriented. cbn. lia.
Qed.

Lemma load_pass_spec rng n h :
  wp (load_pass G rng n ([], 0.0%float))
     (fun acc _ =>
        (forall k, In k (dict_keys (fst acc)) -> 2 <= k <= n) /\
        snd acc = total_of (fst acc)) h.
Proof.
  unfold load_pass.
  apply wp_mono with
    (Q := fun acc (_ : Heap.t G) =>
            (forall k, In k (dict_keys (fst acc)) ->
                       In k (range 2 (n + 1))) /\
            snd acc = total_of (fst acc)).
  { intros acc h' [Hk Ht]. split; [|exact Ht].
    intros k Hin. apply Hk, In_range in Hin. lia. }
  apply (wp_for_each
           (fun bus '(loads, total_load) =>
              bind (random G rng) (fun r =>
              if (0.3 <? r)%float
              then bind (random G rng) (fun r' =>
                     ret (dict_set loads bus (50.0 + r' * 450.0)%float,
                          (total_load + (50.0 + r' * 450.0))%float))
              else ret (loads, total_load)))
           (fun pre acc _ =>
              (forall k, In k (dict_keys (fst acc)) -> In k pre) /\
              snd acc = total_of (fst acc))
           (range 2 (n + 1)) []).
  - split; [intros k []|reflexivity].
  - intros pre x post [loads total] h0 Heq [Hkeys Htot].
    cbn [fst snd app] in *.
    assert (Hnew : ~ In x (dict_keys loads)).
    { intros Hin. apply Hkeys in Hin.
      pose proof (NoDup_range 2 (n + 1)) as Hnd. rewrite Heq in Hnd.
      apply NoDup_remove_2 in Hnd. apply Hnd, in_or_app. now left. }
    apply wp_bind, wp_random. intros r h1.
    destruct (0.3 <? r)%float.
    + apply wp_bind, wp_random. intros r' h2. apply wp_ret. cbn [fst snd].
      rewrite dict_set_new by assumption. split.
      * intros k. unfold dict_keys. rewrite map_app, !in_app_iff. cbn.
        intros [Hin|[<-|[]]]; [left; now apply Hkeys|right; now left].
      * now rewrite total_of_snoc, Htot.
    + apply wp_ret. cbn [fst snd]. split; [|assumption].
      intros k Hin. apply in_or_app. left. now apply Hkeys.
Qed.

End Passes.

(** ** Connectivity *)

Lemma adjacent_sym lines a b : adjacent lines a b -> adjacent lines b a.
Proof. intros (x & [H|H]); exists x; tauto. Qed.

Lemma adjacent_incl lines lines' a b :
  incl lines lines' -> adjacent lines a b -> adjacent lines' a b.
Proof. intros Hi (x & [H|H]); exists x; [left|right]; now apply Hi. Qed.

Lemma connected_trans lines a b c :
  connected lines a b -> connected lines b c -> connected lines a c.
Proof.
  intros Hab Hbc. induction Hbc as [|b c d _ IH Hadj]; [assumption|].
  eapply connected_step; [now apply IH | assumption].
Qed.

Lemma connected_sym lines a b : connected lines a b -> connected lines b a.
Proof.
  induction 1 as [|a b c _ IH Hadj]; [constructor|].
  eapply connected_trans; [|exact IH].
  eapply connected_step; [constructor | now apply adjacent_sym].
Qed.

Lemma connected_incl lines lines' a b :
  incl lines lines' -> connected lines a b -> connected lines' a b.
Proof.
  intros Hi. induction 1 as [|a b c _ IH Hadj]; [constructor|].
  eapply connected_step; [exact IH | now apply adjacent_incl with lines].
Qed.

Lemma In_path_pairs n i : 1 <= i < n -> In (i, i + 1) (path_pairs n).
Proof.
  intros Hi. unfold path_pairs. apply in_map_iff. exists i.
  split; [reflexivity | now apply In_range].
Qed.

Lemma path_pairs_length n : length (path_pairs n) = Z.to_nat (n - 1).
Proof. unfold path_pairs. now rewrite length_map, range_length. Qed.

(** A line list whose endpoints are those of the path reaches every bus from
    bus 1. *)
Lemma path_reaches tree n :
  map endpoints tree = path_pairs n ->
  forall k, (Z.of_nat k < n)%Z -> connected tree 1 (1 + Z.of_nat k).
Proof.
  intros Htree. induction k as [|k IH]; intros Hk.
  - cbn. constructor.
  - eapply connected_step; [apply IH; lia|].
    assert (Hin : In (1 + Z.of_nat k, 1 + Z.of_nat k + 1) (map endpoints tree))
      by (rewrite Htree; apply In_path_pairs; lia).
    apply in_map_iff in Hin. destruct Hin as ([[u v] x] & Heq & Hin).
    cbn in Heq. injection Heq as -> ->.
    exists x. left. now replace (1 + Z.of_nat (S k)) with (1 + Z.of_nat k + 1)
      by lia.
Qed.

Lemma path_connected tree n :
  map endpoints tree = path_pairs n -> connected_graph n tree.
Proof.
  intros Htree a b Ha Hb.
  apply connected_trans with 1.
  - apply connected_sym.
    replace a with (1 + Z.of_nat (Z.to_nat (a - 1))) by lia.
    apply path_reaches with n; [assumption|lia].
  - replace b with (1 + Z.of_nat (Z.to_nat (b - 1))) by lia.
    apply path_reaches with n; [assumption|lia].
Qed.

Lemma path_well_oriented tree n :
  map endpoints tree = path_pairs n -> Forall (well_oriented n) tree.
Proof.
  intros Htree. apply Forall_forall. intros l Hl.
  assert (Hin : In (endpoints l) (path_pairs n))
    by (rewrite <- Htree; now apply in_map).
  unfold path_pairs in Hin. apply in_map_iff in Hin.
  destruct Hin as (i & Heq & Hi). apply In_range in Hi.
  destruct l as [[u v] x]. cbn in Heq. injection Heq as <- <-.
  unfold well_oriented. cbn. lia.
Qed.

(** ** The fallback and the generator map *)

Lemma fallback_total acc :
  snd acc = total_of (fst acc) ->
  snd (fallback acc) = total_of (fst (fallback acc)).
Proof.
  destruct acc as [[|[k p] loads] total]; cbn [fallback dict_is_empty fst snd].
  - intros _. reflexivity.
  - exact (fun H => H).
Qed.

Lemma fallback_empty total :
  fallback ([], total) = ([(2, 200.0%float)], 200.0%float).
Proof. reflexivity. Qed.

Lemma fallback_nonempty acc :
  fst acc <> [] -> fallback acc = acc.
Proof. destruct acc as [[|e loads] total]; cbn; [tauto|reflexivity]. Qed.

Lemma generator_keys n loads total :
  dict_keys (generator_pass n loads total) = 1 :: range_step 2 (n + 1) 4.
Proof.
  rewrite generator_pass_eq. unfold dict_keys. cbn [map fst]. f_equal.
  apply dict_keys_tabulate.
Qed.

Lemma generator_slack n loads total :
  dict_lookup (generator_pass n loads total) 1 = Some (total * 1.1)%float.
Proof. now rewrite generator_pass_eq. Qed.

Lemma generator_local n loads total b :
  In b (range_step 2 (n + 1) 4) ->
  dict_lookup (generator_pass n loads total) b =
  Some (local_capacity loads b).
Proof.
  intros Hb. rewrite generator_pass_eq. cbn [dict_lookup].
  destruct (Z.eqb_spec 1 b) as [<-|_].
  - apply In_range_step in Hb; [|lia]. destruct Hb as (k & ? & ? & ?). lia.
  - now apply dict_lookup_tabulate.
Qed.

(** ** [generate_network] as the sequence of its passes *)

Section Whole.

Variable G : BitGenerator.
Hypothesis G_bounded : bounded_in_range G.

Lemma generate_network_passes n seed h tree h1 lines h2 acc h3 :
  0 <= seed ->
  spanning_tree G (Heap.fresh h) n []
                (snd (Heap.alloc h (seed_state G seed))) = Ok (tree, h1) ->
  extra_edges G (Heap.fresh h) n tree h1 = Ok (lines, h2) ->
  load_pass G (Heap.fresh h) n ([], 0.0%float) h2 = Ok (acc, h3) ->
  sampled_loads G n seed h = Ok (acc, h3) /\
  generate_network G n seed h =
  Ok ((n, lines,
       generator_pass n (fst (fallback acc)) (snd (fallback acc)),
       fst (fallback acc)), h3).
Proof.
  intros Hs H1 H2 H3.
  unfold sampled_loads, generate_network, bind, default_rng.
  destruct (Z.ltb_spec seed 0); [lia|].
  cbn [Heap.alloc fst snd] in *. rewrite H1, H2, H3.
  split; [reflexivity|]. now destruct (fallback acc).
Qed.

(** Everything the passes establish, for a network of two buses or more. *)
Lemma generate_network_spec n seed h :
  2 <= n -> 0 <= seed ->
  exists tree extra acc h',
    sampled_loads G n seed h = Ok (acc, h') /\
    generate_network G n seed h =
    Ok ((n, tree ++ extra,
         generator_pass n (fst (fallback acc)) (snd (fallback acc)),
         fst (fallback acc)), h') /\
    map endpoints tree = path_pairs n /\
    length extra = Z.to_nat (Z.max 1 (n / 3)) /\
    Forall (well_oriented n) extra /\
    (forall k, In k (dict_keys (fst acc)) -> 2 <= k <= n) /\
    snd acc = total_of (fst acc).
Proof.
  intros Hn Hs.
  destruct (wp_elim _ _ _ (spanning_tree_spec G (Heap.fresh h) n []
              (snd (Heap.alloc h (seed_state G seed)))))
    as (lines1 & h1 & E1 & tree & -> & Htree).
  destruct (wp_elim _ _ _ (@extra_edges_spec G G_bounded (Heap.fresh h)
                                             n ([] ++ tree) h1 Hn))
    as (lines2 & h2 & E2 & extra & -> & Hlen & Hall).
  destruct (wp_elim _ _ _ (load_pass_spec G (Heap.fresh h) n h2))
    as (acc & h3 & E3 & Hkeys & Htot).
  cbn [app] in E1, E2.
  destruct (generate_network_passes _ _ _ _ _ _ _ _ _ Hs E1 E2 E3) as [Es Eg].
  exists tree, extra, acc, h3. tauto.
Qed.

End Whole.

(** ** Locality: a run reads and writes its own generator object only *)

Section Locality.

Context {G : BitGenerator}.

(** [m] changes no object but [rng] and allocates nothing. *)
Definition confined {A} (rng : nat) (m : M G A) : Prop :=
  forall h, match m h with
            | Ok (_, h') =>
                Heap.fresh h' = Heap.fresh h /\
                forall a, a <> rng -> Heap.objs h' a = Heap.objs h a
            | Raise _ => True
            end.

(** [m1] on the object [r1] and [m2] on the object [r2] behave alike when
    the two objects start in the same state. *)
Definition coupled {A} (r1 r2 : nat) (m1 m2 : M G A) : Prop :=
  forall h1 h2,
    Heap.objs h1 r1 = Heap.objs h2 r2 ->
    match m1 h1, m2 h2 with
    | Ok (a1, h1'), Ok (a2, h2') =>
        a1 = a2 /\ Heap.objs h1' r1 = Heap.objs h2' r2
    | Raise e1, Raise e2 => e1 = e2
    | _, _ => False
    end.

Lemma confined_ret {A} rng (a : A) : confined rng (ret (St := Heap.t G) a).
Proof. intros h. cbn. tauto. Qed.

Lemma confined_bind {A B} rng (m : M G A) (k : A -> M G B) :
  confined rng m -> (forall a, confined rng (k a)) ->
  confined rng (bind m k).
Proof.
  intros Hm Hk h. unfold bind. specialize (Hm h).
  destruct (m h) as [[a h1]|e]; [|exact I].
  specialize (Hk a h1). destruct (k a h1) as [[b h2]|e]; [|exact I].
  destruct Hm as [Hf1 Ho1], Hk as [Hf2 Ho2]. split; [congruence|].
  intros c Hc. now rewrite Ho2, Ho1.
Qed.

Lemma confined_for_each {A S} rng (body : A -> S -> M G S) xs :
  (forall x acc, confined rng (body x acc)) ->
  forall acc, confined rng (for_each xs body acc).
Proof.
  intros Hb. induction xs as [|x xs IH]; intros acc; cbn [for_each].
  - apply confined_ret.
  - apply confined_bind; [apply Hb | exact IH].
Qed.

Lemma objs_write_other (h : Heap.t G) rng s a :
  a <> rng -> Heap.objs (Heap.write h rng s) a = Heap.objs h a.
Proof. intros Ha. cbn. now destruct (Nat.eqb_spec a rng). Qed.

Lemma objs_write_same (h : Heap.t G) rng s :
  Heap.objs (Heap.write h rng s) rng = s.
Proof. cbn. now rewrite Nat.eqb_refl. Qed.

Lemma confined_random rng : confined rng (random G rng).
Proof.
  intros h. unfold random. destruct (next_double G (Heap.objs h rng)).
  split; [reflexivity|]. intros a Ha. now apply objs_write_other.
Qed.

Lemma confined_integers rng low high :
  confined rng (integers G rng low high).
Proof.
  intros h. unfold integers. destruct (high <=? low); [exact I|].
  destruct (next_bounded G low high (Heap.objs h rng)).
  split; [reflexivity|]. intros a Ha. now apply objs_write_other.
Qed.

Lemma coupled_ret {A} r1 r2 (a : A) : coupled r1 r2 (ret (St := Heap.t G) a) (ret a).
Proof. intros h1 h2 H. cbn. tauto. Qed.

Lemma coupled_bind {A B} r1 r2 (m1 m2 : M G A) (k1 k2 : A -> M G B) :
  coupled r1 r2 m1 m2 -> (forall a, coupled r1 r2 (k1 a) (k2 a)) ->
  coupled r1 r2 (bind m1 k1) (bind m2 k2).
Proof.
  intros Hm Hk h1 h2 H. unfold bind. specialize (Hm h1 h2 H).
  destruct (m1 h1) as [[a1 h1']|e1], (m2 h2) as [[a2 h2']|e2];
    try contradiction; [|assumption].
  destruct Hm as [<- H']. now apply Hk.
Qed.

Lemma coupled_for_each {A S} r1 r2 (b1 b2 : A -> S -> M G S) xs :
  (forall x acc, coupled r1 r2 (b1 x acc) (b2 x acc)) ->
  forall acc, coupled r1 r2 (for_each xs b1 acc) (for_each xs b2 acc).
Proof.
  intros Hb. induction xs as [|x xs IH]; intros acc; cbn [for_each].
  - apply coupled_ret.
  - apply coupled_bind; [apply Hb | exact IH].
Qed.

Lemma coupled_random r1 r2 : coupled r1 r2 (random G r1) (random G r2).
Proof.
  intros h1 h2 H. unfold random. rewrite H.
  destruct (next_double G (Heap.objs h2 r2)).
  now rewrite !objs_write_same.
Qed.

Lemma coupled_integers r1 r2 low high :
  coupled r1 r2 (integers G r1 low high) (integers G r2 low high).
Proof.
  intros h1 h2 H. unfold integers. destruct (high <=? low); [reflexivity|].
  rewrite H. destruct (next_bounded G low high (Heap.objs h2 r2)).
  now rewrite !objs_write_same.
Qed.

End Locality.

Section GeneratorLocality.

Variable G : BitGenerator.

(** [generate_network] once its generator object exists. *)
Let body (n : Z) (rng : nat) : M G network :=
  bind (spanning_tree G rng n []) (fun lines =>
  bind (extra_edges G rng n lines) (fun lines =>
  bind (load_pass G rng n ([], 0.0%float)) (fun acc =>
  let '(loads, total_load) := fallback acc in
  ret (n, lines, generator_pass n loads total_load, loads)))).

Lemma body_confined n rng : confined rng (body n rng).
Proof.
  unfold body, spanning_tree, extra_edges, load_pass.
  repeat first
    [ apply confined_bind | apply confined_for_each | apply confined_ret
    | apply confined_random | apply confined_integers
    | match goal with
      | |- forall _, _ => intro
      | |- confined _ (let '(_, _) := ?p in _) => destruct p
      | |- confined _ (if ?c then _ else _) => destruct c
      end ].
Qed.

Lemma body_coupled n r1 r2 : coupled r1 r2 (body n r1) (body n r2).
Proof.
  unfold body, spanning_tree, extra_edges, load_pass.
  repeat first
    [ apply coupled_bind | apply coupled_for_each | apply coupled_ret
    | apply coupled_random | apply coupled_integers
    | match goal with
      | |- forall _, _ => intro
      | |- coupled _ _ (let '(_, _) := ?p in _) _ => destruct p
      | |- coupled _ _ (if ?c then _ else _) _ => destruct c
      end ].
Qed.

Lemma generate_network_body n seed h :
  generate_network G n seed h =
  if seed <? 0 then Raise ValueError
  else body n (Heap.fresh h) (snd (Heap.alloc h (seed_state G seed))).
Proof.
  unfold generate_network, bind, default_rng.
  now destruct (seed <? 0).
Qed.

Lemma generate_network_same_outcome n seed h1 h2 :
  outcome (generate_network G n seed h1) =
  outcome (generate_network G n seed h2).
Proof.
  rewrite !generate_network_body.
  destruct (seed <? 0); [reflexivity|].
  pose proof (body_coupled n (Heap.fresh h1) (Heap.fresh h2)
                (snd (Heap.alloc h1 (seed_state G seed)))
                (snd (Heap.alloc h2 (seed_state G seed)))) as H.
  cbn [Heap.alloc snd Heap.objs] in H. rewrite !Nat.eqb_refl in H.
  specialize (H eq_refl). cbn [Heap.alloc snd].
  destruct (body n (Heap.fresh h1) _) as [[a1 h1']|e1],
           (body n (Heap.fresh h2) _) as [[a2 h2']|e2];
    try contradiction; cbn; [now destruct H as [<- _] | now subst].
Qed.

Lemma generate_network_frame n seed h net h' :
  generate_network G n seed h = Ok (net, h') ->
  Heap.fresh h' = S (Heap.fresh h) /\
  forall a, (a < Heap.fresh h)%nat -> Heap.objs h' a = Heap.objs h a.
Proof.
  rewrite generate_network_body.
  destruct (seed <? 0); [discriminate|]. intros E.
  pose proof (body_confined n (Heap.fresh h)
                (snd (Heap.alloc h (seed_state G seed)))) as H.
  rewrite E in H. destruct H as [Hf Ho]. split; [exact Hf|].
  intros a Ha. rewrite Ho by lia. cbn.
  destruct (Nat.eqb_spec a (Heap.fresh h)); [lia|reflexivity].
Qed.

End GeneratorLocality.

(** ** The test generator obeys the contract *)

Lemma counter_bounded : bounded_in_range Counter.gen.
Proof.
intros low high s Hlt. cbn.
pose proof (Z.mod_pos_bound s (high - low)). lia.
Qed.

(** With one bus the first additional edge asks for an integer of the empty
interval [[1, 1)], whatever the bit generator. *)
Lemma single_bus_raises (G : BitGenerator) (seed : Z) (h : Heap.t G) :
generate_network G 1 seed h = Raise ValueError.
Proof.
unfold generate_network, bind, default_rng. now destruct (seed <? 0).
Qed.

(** A negative seed is refused before anything is generated. *)
Lemma negative_seed_raises (G : BitGenerator) (n seed : Z) (h : Heap.t G) :
seed < 0 -> generate_network G n seed h = Raise ValueError.
Proof.
intros Hs. unfold generate_network, bind, default_rng.
destruct (Z.ltb_spec seed 0); [reflexivity|lia].
Qed.

(** ** Binary64 arithmetic

What the claims need of IEEE arithmetic, from the specification of the
primitive floats ([SpecFloat]): sums and products of non-negative numbers are
non-negative, and a non-negative number does not shrink when multiplied by
1.1. *)

Lemma digits2_pos_bounds (p : positive) :
  2 ^ (Z.pos (digits2_pos p) - 1) <= Z.pos p < 2 ^ Z.pos (digits2_pos p).
Proof.
induction p as [p IH|p IH|]; cbn [digits2_pos].
- rewrite Pos2Z.inj_succ.
  replace (Z.succ (Z.pos (digits2_pos p)) - 1) with (Z.pos (digits2_pos p) - 1 + 1) by lia.
  rewrite Z.pow_succ_r by lia. rewrite Z.pow_add_r by lia. lia.
- rewrite Pos2Z.inj_succ.
  replace (Z.succ (Z.pos (digits2_pos p)) - 1) with (Z.pos (digits2_pos p) - 1 + 1) by lia.
  rewrite Z.pow_succ_r by lia. rewrite Z.pow_add_r by lia. lia.
- cbn. lia.
Qed.

Lemma shr_1_m mrs : 0 <= shr_m mrs -> shr_m (shr_1 mrs) = shr_m mrs / 2.
Proof.
destruct mrs as [m r s]. cbn [shr_m]. intros Hm.
destruct m as [|[p|p|]|p]; cbn [shr_1 shr_m]; try lia.
- reflexivity.
- rewrite Pos2Z.inj_xI. apply Z.div_unique with 1; lia.
- rewrite Pos2Z.inj_xO. apply Z.div_unique with 0; lia.
- reflexivity.
Qed.

Lemma pow2_xO p : 2 ^ Z.pos p~0 = 2 ^ Z.pos p * 2 ^ Z.pos p.
Proof. rewrite Pos2Z.inj_xO, <- Z.pow_add_r by lia. f_equal. lia. Qed.

Lemma pow2_xI p : 2 ^ Z.pos p~1 = 2 * (2 ^ Z.pos p * 2 ^ Z.pos p).
Proof.
rewrite Pos2Z.inj_xI, <- Z.pow_add_r, <- Z.pow_succ_r by lia. f_equal. lia.
Qed.

Lemma iter_shr_1_m p : forall mrs,
  0 <= shr_m mrs ->
  shr_m (iter_pos shr_1 p mrs) = shr_m mrs / 2 ^ Z.pos p.
Proof.
assert (Hpow : forall q, 0 < 2 ^ Z.pos q) by (intros; apply Z.pow_pos_nonneg; lia).
induction p as [p IH|p IH|]; intros mrs Hm; cbn [iter_pos].
- assert (H1 : 0 <= shr_m (shr_1 mrs))
    by (rewrite shr_1_m by assumption; apply Z.div_pos; lia).
  assert (H2 : 0 <= shr_m (iter_pos shr_1 p (shr_1 mrs)))
    by (rewrite IH by assumption; apply Z.div_pos; [assumption|apply Hpow]).
  rewrite IH, IH, shr_1_m by assumption.
  pose proof (Hpow p).
  rewrite pow2_xI, !Z.div_div by lia. reflexivity.
- assert (H2 : 0 <= shr_m (iter_pos shr_1 p mrs))
    by (rewrite IH by assumption; apply Z.div_pos; [assumption|apply Hpow]).
  rewrite IH, IH by assumption.
  pose proof (Hpow p).
  rewrite pow2_xO, !Z.div_div by lia. reflexivity.
- now apply shr_1_m.
Qed.

Lemma shr_record_of_loc_m m l : shr_m (shr_record_of_loc m l) = m.
Proof. destruct l as [|[| |]]; reflexivity. Qed.

(** [shr_fexp] divides by the power of two that brings the exponent up to
    the format's. *)
Lemma shr_fexp_spec m e l :
  0 <= m ->
  let e' := Z.max e (fexp prec emax (Zdigits2 m + e)) in
  snd (shr_fexp prec emax m e l) = e' /\
  shr_m (fst (shr_fexp prec emax m e l)) = m / 2 ^ (e' - e).
Proof.
intros Hm e'. unfold shr_fexp, shr.
destruct (fexp prec emax (Zdigits2 m + e) - e) as [|k|k] eqn:Ek; cbn [fst snd].
- assert (e' = e) as -> by lia. rewrite Z.sub_diag, Z.pow_0_r, Z.div_1_r.
  split; [reflexivity|apply shr_record_of_loc_m].
- assert (e' = e + Z.pos k) as -> by lia. split; [reflexivity|].
  rewrite iter_shr_1_m by (rewrite shr_record_of_loc_m; assumption).
  rewrite shr_record_of_loc_m. do 2 f_equal. lia.
- assert (e' = e) as -> by lia. rewrite Z.sub_diag, Z.pow_0_r, Z.div_1_r.
  split; [reflexivity|apply shr_record_of_loc_m].
Qed.

Lemma round_nearest_even_bounds m l : m <= round_nearest_even m l <= m + 1.
Proof.
destruct l as [|[| |]]; cbn; try lia. destruct (Z.even m); lia.
Qed.

(** The two shifts and the rounding in between, in terms of integers. *)
Lemma binary_round_aux_spec sx mx ex lx :
  0 <= mx ->
  let e1 := Z.max ex (fexp prec emax (Zdigits2 mx + ex)) in
  exists m1,
    mx / 2 ^ (e1 - ex) <= m1 <= mx / 2 ^ (e1 - ex) + 1 /\
    let e2 := Z.max e1 (fexp prec emax (Zdigits2 m1 + e1)) in
    binary_round_aux prec emax sx mx ex lx =
    match m1 / 2 ^ (e2 - e1) with
    | Z0 => S754_zero sx
    | Zpos m => if e2 <=? emax - prec then S754_finite sx m e2
                else S754_infinity sx
    | Zneg _ => S754_nan
    end.
Proof.
intros Hmx e1. unfold binary_round_aux.
destruct (shr_fexp_spec mx ex lx Hmx) as [He1 Hm1].
destruct (shr_fexp prec emax mx ex lx) as [mrs1 e1'].
cbn [fst snd] in He1, Hm1. fold e1 in He1, Hm1. subst e1'.
set (m1 := round_nearest_even (shr_m mrs1) (loc_of_shr_record mrs1)).
exists m1.
pose proof (round_nearest_even_bounds (shr_m mrs1) (loc_of_shr_record mrs1)) as Hb.
fold m1 in Hb. rewrite Hm1 in Hb. split; [exact Hb|].
assert (Hm1' : 0 <= m1).
{ assert (0 <= mx / 2 ^ (e1 - ex)); [|lia].
  apply Z.div_pos; [assumption|apply Z.pow_pos_nonneg; lia]. }
destruct (shr_fexp_spec m1 e1 loc_Exact Hm1') as [He2 Hm2].
destruct (shr_fexp prec emax m1 e1 loc_Exact) as [mrs2 e2'].
cbn [fst snd] in He2, Hm2. cbn zeta. now rewrite Hm2, He2.
Qed.

Definition sf_nonneg (x : spec_float) : Prop :=
  match x with
  | S754_zero _ => True
  | S754_infinity s => s = false
  | S754_nan => False
  | S754_finite s _ _ => s = false
  end.

Lemma sf_nonneg_iff x : SFleb (S754_zero false) x = true <-> sf_nonneg x.
Proof.
destruct x as [s|[|]| |[|] m e]; cbn; intuition congruence.
Qed.

Lemma binary_round_aux_nonneg mx ex lx :
  0 <= mx -> sf_nonneg (binary_round_aux prec emax false mx ex lx).
Proof.
intros Hmx.
destruct (binary_round_aux_spec false mx ex lx Hmx) as (m1 & Hb & E).
cbn zeta in E. rewrite E.
set (e1 := Z.max ex (fexp prec emax (Zdigits2 mx + ex))) in *.
set (e2 := Z.max e1 (fexp prec emax (Zdigits2 m1 + e1))) in *.
assert (0 <= m1 / 2 ^ (e2 - e1)).
{ apply Z.div_pos; [|apply Z.pow_pos_nonneg; lia].
  assert (0 <= mx / 2 ^ (e1 - ex)); [|lia].
  apply Z.div_pos; [assumption|apply Z.pow_pos_nonneg; lia]. }
destruct (m1 / 2 ^ (e2 - e1)); [exact I| |lia].
now destruct (e2 <=? emax - prec).
Qed.

Lemma SFadd_nonneg x y :
  sf_nonneg x -> sf_nonneg y -> sf_nonneg (SFadd prec emax x y).
Proof.
destruct x as [sx|sx| |sx mx ex], y as [sy|sy| |sy my ey]; cbn [sf_nonneg];
  intros Hx Hy; subst; try contradiction; try exact I; try reflexivity.
- cbn. now destruct sx, sy.
- unfold SFadd, cond_Zopp.
  destruct (shl_align mx ex (Z.min ex ey)) as [mx' ex'].
  destruct (shl_align my ey (Z.min ex ey)) as [my' ey']. cbn [fst].
  cbn [Z.add binary_normalize]. unfold binary_round.
  destruct (shl_align _ _ _) as [mz ez].
  apply binary_round_aux_nonneg. lia.
Qed.

Lemma SFmul_nonneg x my ey :
  sf_nonneg x -> sf_nonneg (SFmul prec emax x (S754_finite false my ey)).
Proof.
destruct x as [sx|sx| |sx mx ex]; cbn [sf_nonneg]; intros Hx; subst;
  try contradiction; try exact I; try reflexivity.
cbn [SFmul xorb]. apply binary_round_aux_nonneg. lia.
Qed.

(** Multiplying a non-negative binary64 number by a factor of [[1, 2)]
    cannot make it smaller. *)
Lemma SFmul_grows x c :
  SpecFloat.valid_binary prec emax x = true -> sf_nonneg x ->
  2 ^ 52 <= Z.pos c < 2 ^ 53 ->
  SFleb x (SFmul prec emax x (S754_finite false c (-52))) = true.
Proof.
destruct x as [sx|sx| |sx m e]; cbn [sf_nonneg SpecFloat.valid_binary];
  intros Hv Hx Hc; subst; try contradiction; try reflexivity.
cbn [SFmul xorb].
  unfold bounded, canonical_mantissa in Hv.
  apply andb_prop in Hv. destruct Hv as [Hcan Hemax].
  apply Z.eqb_eq in Hcan. apply Z.leb_le in Hemax.
  pose proof (digits2_pos_bounds m) as Hdm.
  set (dm := Z.pos (digits2_pos m)) in *.
  assert (Hdm0 : 0 < dm) by (unfold dm; lia).
  destruct (binary_round_aux_spec false (Z.pos (m * c)) (e + -52) loc_Exact
              ltac:(lia)) as (m1 & Hb & E).
  cbn zeta in E. rewrite E. clear E.
  pose proof (digits2_pos_bounds (m * c)) as HdM.
  cbn [Zdigits2] in Hb |- *.
  set (dM := Z.pos (digits2_pos (m * c))) in *.
  rewrite Pos2Z.inj_mul in HdM, Hb.
  unfold fexp, emin, prec, emax in *.
  (* the product has 52 or 53 digits more than [m] *)
  assert (HdM1 : dm + 52 <= dM).
  { assert (2 ^ (dm + 51) < 2 ^ dM); [|apply Z.pow_lt_mono_r_iff in H; lia].
    replace (dm + 51) with (dm - 1 + 52) by lia.
    rewrite Z.pow_add_r by lia. nia. }
  assert (HdM2 : dM <= dm + 53).
  { assert (2 ^ (dM - 1) < 2 ^ (dm + 53));
      [|apply Z.pow_lt_mono_r_iff in H; lia].
    rewrite (Z.pow_add_r 2 dm 53) by lia. nia. }
  set (e1 := Z.max (e + -52) (Z.max (dM + (e + -52) - 53) (3 - 1024 - 53))) in *.
  assert (He1 : e1 = e \/ (e1 = e + 1 /\ dM = 106)) by lia.
  assert (Hq : (e1 = e -> Z.pos m <= Z.pos m * Z.pos c / 2 ^ (e1 - (e + -52)))
               /\ 1 <= Z.pos m * Z.pos c / 2 ^ (e1 - (e + -52))).
  { destruct He1 as [->|[-> HM]].
    - replace (e - (e + -52)) with 52 by lia.
      assert (Z.pos m <= Z.pos m * Z.pos c / 2 ^ 52)
        by (apply Z.div_le_lower_bound; [lia|nia]).
      lia.
    - replace (e + 1 - (e + -52)) with 53 by lia. split; [lia|].
      apply Z.div_le_lower_bound; [lia|].
      rewrite HM in HdM. replace (106 - 1) with 105 in HdM by lia.
      assert (2 ^ 53 <= 2 ^ 105) by (apply Z.pow_le_mono_r; lia). lia. }
  set (q := Z.pos m * Z.pos c / 2 ^ (e1 - (e + -52))) in *.
  destruct Hq as [Hq1 Hq2].
  destruct m1 as [|p1|p1]; try lia.
  pose proof (digits2_pos_bounds p1) as Hd1. cbn [Zdigits2].
  set (d1 := Z.pos (digits2_pos p1)) in *.
  set (e2 := Z.max e1 (Z.max (d1 + e1 - 53) (3 - 1024 - 53))).
  assert (He2 : e2 = e1 \/ (e1 < e2 /\ e2 - e1 = d1 - 53)) by lia.
  assert (Hm2 : 1 <= Z.pos p1 / 2 ^ (e2 - e1)
                /\ (e2 = e1 -> Z.pos p1 / 2 ^ (e2 - e1) = Z.pos p1)).
  { destruct He2 as [->|[Hlt ->]].
    - rewrite Z.sub_diag, Z.pow_0_r, Z.div_1_r. lia.
    - split; [|lia].
      apply Z.div_le_lower_bound; [apply Z.pow_pos_nonneg; lia|].
      assert (2 ^ (d1 - 53) <= 2 ^ (d1 - 1)) by (apply Z.pow_le_mono_r; lia).
      lia. }
  destruct Hm2 as [Hm2 Hm2'].
  destruct (Z.pos p1 / 2 ^ (e2 - e1)) as [|q2|q2] eqn:Eq2; try lia.
  destruct (e2 <=? 1024 - 53); [|reflexivity].
  unfold SFleb, SFcompare.
  destruct (Z.compare_spec e e2) as [Heq|Hlt|Hgt]; [|reflexivity|lia].
  assert (Z.pos m <= Z.pos q2) by (rewrite Hm2'; lia).
  change (Pos.compare_cont Eq m q2) with (m ?= q2)%positive.
  destruct (Pos.compare_spec m q2); [reflexivity|reflexivity|lia].
Qed.

Definition nonneg (x : float) : Prop := (0 <=? x)%float = true.

Lemma nonneg_sf x : nonneg x <-> sf_nonneg (Prim2SF x).
Proof.
unfold nonneg. rewrite leb_spec. apply sf_nonneg_iff.
Qed.

Lemma nonneg_add x y : nonneg x -> nonneg y -> nonneg (x + y).
Proof.
rewrite !nonneg_sf, add_spec. apply SFadd_nonneg.
Qed.

Lemma nonneg_mul_const x c m e :
  Prim2SF c = S754_finite false m e -> nonneg x -> nonneg (x * c).
Proof.
intros Hc. rewrite !nonneg_sf, mul_spec, Hc. apply SFmul_nonneg.
Qed.

Lemma le_mul_1_1 x : nonneg x -> (x <=? x * 1.1)%float = true.
Proof.
intros Hx. apply nonneg_sf in Hx.
rewrite leb_spec, mul_spec.
change (Prim2SF 1.1) with (S754_finite false 4953959590107546 (-52)).
apply SFmul_grows; [apply Prim2SF_valid | assumption | lia].
Qed.

(** * The claims *)

(** C1, counterexample: with [n = 1] and seed 42 the call raises [ValueError]
(on a generator that obeys NumPy's contract), so the function is not total
on all [n >= 1]. *)
Lemma generate_network_one_bus_fails :
bounded_in_range Counter.gen /\
outcome (generate_network Counter.gen 1 42 (Heap.empty Counter.gen))
= Raise ValueError.
Proof. split; [exact counter_bounded | reflexivity]. Qed.

(** C1, amended: for every bus count [n >= 2] and every seed [>= 0] (the
seeds NumPy accepts), [generate_network] raises nothing and returns the
4-tuple (bus count, line list, generator map, load map), the bus count being
[n]. *)
Theorem generate_network_total (G : BitGenerator) (n seed : Z) (h : Heap.t G) :
bounded_in_range G -> 2 <= n -> 0 <= seed ->
exists lines generators loads h',
  generate_network G n seed h = Ok ((n, lines, generators, loads), h').
Proof.
intros HG Hn Hs.
destruct (@generate_network_spec G HG n seed h Hn Hs)
  as (tree & extra & acc & h' & _ & E & _).
rewrite E. now eexists _, _, _, _.
Qed.

Lemma generate_network_total_witness :
exists lines generators loads h',
  generate_network Counter.gen 3 42 (Heap.empty Counter.gen)
  = Ok ((3, lines, generators, loads), h').
Proof.
apply (@generate_network_total Counter.gen 3 42 (Heap.empty Counter.gen)).
- exact counter_bounded.
- lia.
- lia.
Defined.

(** The run [E] gives the four results a claim is about. *)
Ltac returned E := do 4 eexists; split; [exact E|].

Lemma tree_length tree n :
map endpoints tree = path_pairs n -> length tree = Z.to_nat (n - 1).
Proof.
intros H. rewrite <- path_pairs_length, <- H. now rewrite length_map.
Qed.

Lemma firstn_tree tree extra n :
map endpoints tree = path_pairs n ->
firstn (Z.to_nat (n - 1)) (tree ++ extra) = tree.
Proof.
intros H. rewrite <- (tree_length _ _ H).
rewrite firstn_app, Nat.sub_diag, firstn_all. cbn. apply app_nil_r.
Qed.

Lemma skipn_tree tree extra n :
map endpoints tree = path_pairs n ->
skipn (Z.to_nat (n - 1)) (tree ++ extra) = extra.
Proof.
intros H. rewrite <- (tree_length _ _ H).
rewrite skipn_app, Nat.sub_diag, skipn_all. reflexivity.
Qed.

(** C2: for [n >= 2] and every seed [>= 0] (a negative seed is refused and
nothing is returned) the first [n - 1] lines returned are the consecutive
pairs [(i, i + 1)], [i = 1 .. n - 1]; these [n - 1] lines alone connect the
buses [1..n], and so does the whole line list. *)
Theorem spanning_tree_connects (G : BitGenerator) (n seed : Z) (h : Heap.t G) :
bounded_in_range G -> 2 <= n -> 0 <= seed ->
exists lines generators loads h',
  generate_network G n seed h = Ok ((n, lines, generators, loads), h') /\
  map endpoints (firstn (Z.to_nat (n - 1)) lines)
  = map (fun i => (i, i + 1)) (range 1 n) /\
  length (firstn (Z.to_nat (n - 1)) lines) = Z.to_nat (n - 1) /\
  connected_graph n (firstn (Z.to_nat (n - 1)) lines) /\
  connected_graph n lines.
Proof.
intros HG Hn Hs.
destruct (@generate_network_spec G HG n seed h Hn Hs)
  as (tree & extra & acc & h' & _ & E & Htree & _).
returned E.
rewrite (firstn_tree _ extra _ Htree).
split; [exact Htree|]. split; [now apply tree_length|].
split; [now apply path_connected|].
intros a b Ha Hb. apply connected_incl with tree.
- now apply incl_appl, incl_refl.
- now apply (path_connected _ _ Htree).
Qed.

Lemma spanning_tree_connects_witness :
exists lines generators loads h',
  generate_network Counter.gen 3 42 (Heap.empty Counter.gen)
  = Ok ((3, lines, generators, loads), h') /\
  map endpoints (firstn (Z.to_nat (3 - 1)) lines)
  = map (fun i => (i, i + 1)) (range 1 3) /\
  length (firstn (Z.to_nat (3 - 1)) lines) = Z.to_nat (3 - 1) /\
  connected_graph 3 (firstn (Z.to_nat (3 - 1)) lines) /\
  connected_graph 3 lines.
Proof.
apply (@spanning_tree_connects Counter.gen 3 42 (Heap.empty Counter.gen)).
- exact counter_bounded.
- lia.
- lia.
Defined.

(** C5: for [n >= 2] and every seed [>= 0] (a negative seed is refused and
nothing is returned) the lines after the first [n - 1] number
[max(1, n // 3)], and the line list has [(n - 1) + max(1, n // 3)]
entries. *)
Theorem extra_edge_count (G : BitGenerator) (n seed : Z) (h : Heap.t G) :
bounded_in_range G -> 2 <= n -> 0 <= seed ->
exists lines generators loads h',
  generate_network G n seed h = Ok ((n, lines, generators, loads), h') /\
  Z.of_nat (length (skipn (Z.to_nat (n - 1)) lines)) = Z.max 1 (n / 3) /\
  Z.of_nat (length lines) = (n - 1) + Z.max 1 (n / 3).
Proof.
intros HG Hn Hs.
destruct (@generate_network_spec G HG n seed h Hn Hs)
  as (tree & extra & acc & h' & _ & E & Htree & Hlen & _).
returned E.
rewrite (skipn_tree _ extra _ Htree), length_app, (tree_length _ _ Htree), Hlen.
lia.
Qed.

Lemma extra_edge_count_witness :
exists lines generators loads h',
  generate_network Counter.gen 10 42 (Heap.empty Counter.gen)
  = Ok ((10, lines, generators, loads), h') /\
  Z.of_nat (length (skipn (Z.to_nat (10 - 1)) lines)) = Z.max 1 (10 / 3) /\
  Z.of_nat (length lines) = (10 - 1) + Z.max 1 (10 / 3).
Proof.
apply (@extra_edge_count Counter.gen 10 42 (Heap.empty Counter.gen)).
- exact counter_bounded.
- lia.
- lia.
Defined.

(** C7: for [n >= 2] and every seed [>= 0] (a negative seed is refused and
nothing is returned) every returned line [(from, to, x)] has
[1 <= from < to <= n], the lines of the tree and the additional ones
alike. *)
Theorem lines_well_oriented (G : BitGenerator) (n seed : Z) (h : Heap.t G) :
bounded_in_range G -> 2 <= n -> 0 <= seed ->
exists lines generators loads h',
  generate_network G n seed h = Ok ((n, lines, generators, loads), h') /\
  forall f t x, In (f, t, x) lines -> 1 <= f /\ f < t /\ t <= n.
Proof.
intros HG Hn Hs.
destruct (@generate_network_spec G HG n seed h Hn Hs)
  as (tree & extra & acc & h' & _ & E & Htree & _ & Hextra & _).
returned E.
intros f t x Hin.
assert (Hall : Forall (well_oriented n) (tree ++ extra))
  by (apply Forall_app; split; [now apply path_well_oriented | assumption]).
rewrite Forall_forall in Hall. exact (Hall _ Hin).
Qed.

Lemma lines_well_oriented_witness :
exists lines generators loads h',
  generate_network Counter.gen 10 42 (Heap.empty Counter.gen)
  = Ok ((10, lines, generators, loads), h') /\
  forall f t x, In (f, t, x) lines -> 1 <= f /\ f < t /\ t <= 10.
Proof.
apply (@lines_well_oriented Counter.gen 10 42 (Heap.empty Counter.gen)).
- exact counter_bounded.
- lia.
- lia.
Defined.

(** C10, counterexample: for [n = 2] and the seed [-1] no line is returned:
NumPy refuses a negative seed and the call raises [ValueError]. *)
Lemma two_bus_negative_seed_fails :
bounded_in_range Counter.gen /\
outcome (generate_network Counter.gen 2 (-1) (Heap.empty Counter.gen))
= Raise ValueError.
Proof. split; [exact counter_bounded | reflexivity]. Qed.

(** C10, amended: nothing removes duplicates; for [n = 2] and every seed
[>= 0] exactly two lines are returned and both join bus 1 to bus 2, the
additional edge repeating the edge of the tree. *)
Theorem two_bus_parallel_lines (G : BitGenerator) (seed : Z) (h : Heap.t G) :
bounded_in_range G -> 0 <= seed ->
exists lines generators loads h',
  generate_network G 2 seed h = Ok ((2, lines, generators, loads), h') /\
  map endpoints lines = [(1, 2); (1, 2)].
Proof.
intros HG Hs.
destruct (@generate_network_spec G HG 2 seed h ltac:(lia) Hs)
  as (tree & extra & acc & h' & _ & E & Htree & Hlen & Hextra & _).
returned E.
rewrite map_app, Htree.
destruct extra as [|[[u v] x] [|l extra]]; try discriminate Hlen.
inversion Hextra as [|? ? [H1 [H2 H3]] _]; subst.
unfold line_from, line_to in H1, H2, H3. cbn [fst snd] in H1, H2, H3.
assert (u = 1) as -> by lia. assert (v = 2) as -> by lia. reflexivity.
Qed.

Lemma two_bus_parallel_lines_witness :
exists lines generators loads h',
  generate_network Counter.gen 2 42 (Heap.empty Counter.gen)
  = Ok ((2, lines, generators, loads), h') /\
  map endpoints lines = [(1, 2); (1, 2)].
Proof.
apply (@two_bus_parallel_lines Counter.gen 42 (Heap.empty Counter.gen)).
- exact counter_bounded.
- lia.
Defined.

(** ** Binary64 facts *)

Lemma SFmul_comm prec emax x y : SFmul prec emax x y = SFmul prec emax y x.
Proof.
destruct x as [sx|sx| |sx mx ex], y as [sy|sy| |sy my ey]; cbn;
  try reflexivity; try (now rewrite xorb_comm).
now rewrite xorb_comm, Pos.mul_comm, Z.add_comm.
Qed.

Lemma float_mul_comm (x y : float) : (x * y)%float = (y * x)%float.
Proof.
apply Prim2SF_inj. rewrite !mul_spec. apply SFmul_comm.
Qed.

(** C8: for [n >= 2] and every seed [>= 0] (a negative seed is refused and
nothing is returned) the generator buses are bus 1 and the buses [2 + 4k]
up to [n], each once; bus [2 + 4k] gets [0.5 * load + 50], its load counting
as 0 when it has none. *)
Theorem generator_buses (G : BitGenerator) (n seed : Z) (h : Heap.t G) :
bounded_in_range G -> 2 <= n -> 0 <= seed ->
exists lines generators loads h',
  generate_network G n seed h = Ok ((n, lines, generators, loads), h') /\
  (forall b, In b (dict_keys generators) <->
             b = 1 \/ exists k, 0 <= k /\ b = 2 + 4 * k /\ b <= n) /\
  NoDup (dict_keys generators) /\
  (forall k, 0 <= k -> 2 + 4 * k <= n ->
     dict_lookup generators (2 + 4 * k)
     = Some (0.5 * dict_get loads (2 + 4 * k) 0.0 + 50.0)%float).
Proof.
intros HG Hn Hs.
destruct (@generate_network_spec G HG n seed h Hn Hs)
  as (tree & extra & acc & h' & _ & E & _).
returned E. rewrite generator_keys.
assert (Hstep : forall b, In b (range_step 2 (n + 1) 4) <->
                          exists k, 0 <= k /\ b = 2 + 4 * k /\ b <= n).
{ intros b. rewrite In_range_step by lia.
  split; intros (k & ? & ? & ?); exists k; lia. }
split; [|split].
- intros b. cbn [In]. rewrite Hstep. intuition congruence.
- constructor; [|apply NoDup_range_step; lia].
  rewrite Hstep. intros (k & ? & ? & ?). lia.
- intros k Hk Hle. rewrite generator_local.
  + unfold local_capacity. now rewrite float_mul_comm.
  + apply Hstep. now exists k.
Qed.

Lemma generator_buses_witness :
exists lines generators loads h',
  generate_network Counter.gen 10 42 (Heap.empty Counter.gen)
  = Ok ((10, lines, generators, loads), h') /\
  (forall b, In b (dict_keys generators) <->
             b = 1 \/ exists k, 0 <= k /\ b = 2 + 4 * k /\ b <= 10) /\
  NoDup (dict_keys generators) /\
  (forall k, 0 <= k -> 2 + 4 * k <= 10 ->
     dict_lookup generators (2 + 4 * k)
     = Some (0.5 * dict_get loads (2 + 4 * k) 0.0 + 50.0)%float).
Proof.
apply (@generator_buses Counter.gen 10 42 (Heap.empty Counter.gen)).
- exact counter_bounded.
- lia.
- lia.
Defined.

(** C4: the result of [generate_network] depends on [(n, seed)] alone: run
from any two heaps of generator objects, so also twice in a row, it gives the
same lines, generators and loads (or the same exception); and a run changes
no generator object that existed before it, it only adds its own. *)
Theorem generate_network_pure (G : BitGenerator) (n seed : Z)
      (h1 h2 : Heap.t G) :
outcome (generate_network G n seed h1) = outcome (generate_network G n seed h2)
/\ match generate_network G n seed h1 with
   | Ok (_, h') =>
       Heap.fresh h' = S (Heap.fresh h1) /\
       (forall a, (a < Heap.fresh h1)%nat -> Heap.objs h' a = Heap.objs h1 a) /\
       outcome (generate_network G n seed h')
       = outcome (generate_network G n seed h1)
   | Raise _ => True
   end.
Proof.
split; [apply generate_network_same_outcome|].
destruct (generate_network G n seed h1) as [[net h']|e] eqn:E; [|exact I].
destruct (@generate_network_frame G n seed h1 net h' E) as [Hf Ho].
repeat split; [exact Hf | exact Ho |].
rewrite <- E. apply generate_network_same_outcome.
Qed.

(** C6, counterexample: a run whose load loop assigns nothing (two buses,
seed 42, on the test generator): the loads are [{2: 200.0}], and the capacity
at bus 1 is the binary64 product [200.0 * 1.1], which is not 220. *)
Lemma fallback_capacity_is_not_220 :
bounded_in_range Counter.gen /\
outcome (sampled_loads Counter.gen 2 42 (Heap.empty Counter.gen))
= Ok ([], 0.0%float) /\
(exists lines,
   outcome (generate_network Counter.gen 2 42 (Heap.empty Counter.gen))
   = Ok (2, lines,
         [(1, (200.0 * 1.1)%float); (2, 150.0%float)],
         [(2, 200.0%float)])) /\
((200.0 * 1.1)%float =? 220.0%float)%float = false /\
(200.0 * 1.1)%float <> 220.0%float.
Proof.
split; [exact counter_bounded|].
split; [reflexivity|].
split; [eexists; reflexivity|].
split; [reflexivity|].
intros H. apply (f_equal (fun x => (x =? 220.0)%float)) in H.
discriminate H.
Qed.

(** C6, amended: for [n >= 2] and every seed [>= 0] (a negative seed is
refused and nothing is returned), when the load loop assigns no load the
returned load map is exactly [{2: 200.0}], its total is 200.0 and the capacity
at bus 1 is the binary64 product [200.0 * 1.1] (220.00000000000003); when the
loop assigns a load the returned map is the loop's, with no fallback
entry. *)
Theorem fallback_load (G : BitGenerator) (n seed : Z) (h : Heap.t G) :
bounded_in_range G -> 2 <= n -> 0 <= seed ->
exists sampled total lines generators loads h',
  sampled_loads G n seed h = Ok ((sampled, total), h') /\
  generate_network G n seed h = Ok ((n, lines, generators, loads), h') /\
  (sampled = [] ->
   loads = [(2, 200.0%float)] /\
   total_of loads = 200.0%float /\
   dict_lookup generators 1 = Some (200.0 * 1.1)%float) /\
  (sampled <> [] -> loads = sampled).
Proof.
intros HG Hn Hs.
destruct (@generate_network_spec G HG n seed h Hn Hs)
  as (tree & extra & [sampled total] & h' & Es & E & _).
exists sampled, total. returned Es. split; [exact E|]. split.
- intros ->. rewrite fallback_empty. cbn [fst snd].
  split; [reflexivity|]. split; [reflexivity|]. apply generator_slack.
- intros Hne. now rewrite fallback_nonempty.
Qed.

Lemma fallback_load_witness :
exists sampled total lines generators loads h',
  sampled_loads Counter.gen 2 42 (Heap.empty Counter.gen)
  = Ok ((sampled, total), h') /\
  generate_network Counter.gen 2 42 (Heap.empty Counter.gen)
  = Ok ((2, lines, generators, loads), h') /\
  (sampled = [] ->
   loads = [(2, 200.0%float)] /\
   total_of loads = 200.0%float /\
   dict_lookup generators 1 = Some (200.0 * 1.1)%float) /\
  (sampled <> [] -> loads = sampled).
Proof.
apply (@fallback_load Counter.gen 2 42 (Heap.empty Counter.gen)).
- exact counter_bounded.
- lia.
- lia.
Defined.

(** ** Loads are non-negative *)

Lemma wp_conj {St A} (m : Comp St A) (Q1 Q2 : A -> St -> Prop) h :
wp m Q1 h -> wp m Q2 h -> wp m (fun a h' => Q1 a h' /\ Q2 a h') h.
Proof. unfold wp. destruct (m h) as [[a h']|e]; tauto. Qed.

Lemma wp_random_unit {G} rng (Q : float -> Heap.t G -> Prop) h :
double_in_unit G ->
(forall x h', nonneg x -> Q x h') -> wp (random G rng) Q h.
Proof.
intros HG HQ. unfold wp, random.
destruct (HG (Heap.objs h rng)) as [H0 _].
destruct (next_double G (Heap.objs h rng)). now apply HQ.
Qed.

Lemma load_pass_nonneg (G : BitGenerator) rng n h :
double_in_unit G ->
wp (load_pass G rng n ([], 0.0%float)) (fun acc _ => nonneg (snd acc)) h.
Proof.
intros HG. unfold load_pass.
rewrite <- (app_nil_l (range 2 (n + 1))).
apply (wp_for_each
         (fun bus '(loads, total_load) =>
            bind (random G rng) (fun r =>
            if (0.3 <? r)%float
            then bind (random G rng) (fun r' =>
                   ret (dict_set loads bus (50.0 + r' * 450.0)%float,
                        (total_load + (50.0 + r' * 450.0))%float))
            else ret (loads, total_load)))
         (fun _ acc _ => nonneg (snd acc))
         (range 2 (n + 1)) []).
- reflexivity.
- intros pre x post [loads total] h0 _ Htot. cbn [snd] in Htot.
  apply wp_bind, wp_random. intros r h1.
  destruct (0.3 <? r)%float; [|now apply wp_ret].
  apply wp_bind, wp_random_unit; [assumption|]. intros r' h2 Hr'.
  apply wp_ret. cbn [snd].
  apply nonneg_add; [assumption|].
  apply nonneg_add; [reflexivity|].
  now apply (@nonneg_mul_const r' 450.0%float 7916483719987200 (-44)).
Qed.

Lemma fallback_nonneg acc : nonneg (snd acc) -> nonneg (snd (fallback acc)).
Proof.
destruct acc as [[|e loads] total]; cbn [fallback dict_is_empty snd];
  [reflexivity | exact (fun H => H)].
Qed.

Lemma counter_unit : double_in_unit Counter.gen.
Proof.
intros s. cbn [next_double Counter.gen fst]. unfold Counter.double.
pose proof (Z.mod_pos_bound s 8 ltac:(lia)) as Hs.
destruct (s mod 8) as [|p|p]; [split; reflexivity| |lia].
destruct p as [[[|p|]|[|p|]|]|[[|p|]|[|p|]|]|]; try lia; split; reflexivity.
Qed.

(** C3: for [n >= 2] and every seed [>= 0] (a negative seed is refused and
nothing is returned) the generator map contains bus 1, its capacity there is
the sum of the returned loads times 1.1, and it is at least that sum. *)
Theorem slack_capacity (G : BitGenerator) (n seed : Z) (h : Heap.t G) :
bounded_in_range G -> double_in_unit G -> 2 <= n -> 0 <= seed ->
exists lines generators loads h',
  generate_network G n seed h = Ok ((n, lines, generators, loads), h') /\
  dict_lookup generators 1 = Some (total_of loads * 1.1)%float /\
  (total_of loads <=? total_of loads * 1.1)%float = true.
Proof.
intros HG HU Hn Hs.
destruct (wp_elim _ _ _ (spanning_tree_spec G (Heap.fresh h) n []
            (snd (Heap.alloc h (seed_state G seed)))))
  as (tree & h1 & E1 & _).
destruct (wp_elim _ _ _ (@extra_edges_spec G HG (Heap.fresh h) n tree h1 Hn))
  as (lines & h2 & E2 & _).
destruct (wp_elim _ _ _
            (wp_conj _ _ _ _ (load_pass_spec G (Heap.fresh h) n h2)
                     (@load_pass_nonneg G (Heap.fresh h) n h2 HU)))
  as (acc & h3 & E3 & [_ Htot] & Hpos).
destruct (@generate_network_passes G n seed h tree h1 lines h2 acc h3
            Hs E1 E2 E3) as [_ E].
returned E.
apply fallback_total in Htot. apply fallback_nonneg in Hpos.
rewrite generator_slack, <- Htot.
split; [reflexivity|]. now apply le_mul_1_1.
Qed.

Lemma slack_capacity_witness :
exists lines generators loads h',
  generate_network Counter.gen 10 42 (Heap.empty Counter.gen)
  = Ok ((10, lines, generators, loads), h') /\
  dict_lookup generators 1 = Some (total_of loads * 1.1)%float /\
  (total_of loads <=? total_of loads * 1.1)%float = true.
Proof.
apply (@slack_capacity Counter.gen 10 42 (Heap.empty Counter.gen)).
- exact counter_bounded.
- exact counter_unit.
- lia.
- lia.
Defined.

(** ** Binary64: rounding does not cross a number

The result of rounding an exact number stays on the side of every binary64
number that the exact number is on. *)

Lemma iter_xO m d : Z.pos (Pos.iter xO m d) = Z.pos m * 2 ^ Z.pos d.
Proof.
revert m. induction d as [|d IH] using Pos.peano_ind; intros m.
- cbn. lia.
- rewrite Pos.iter_succ, Pos2Z.inj_xO, IH, Pos2Z.inj_succ, Z.pow_succ_r by lia. lia.
Qed.

Lemma canonical_bounds m e :
  bounded prec emax m e = true ->
  -1074 <= e <= 971 /\ Z.pos m < 2 ^ 53 /\ (e = -1074 \/ 2 ^ 52 <= Z.pos m).
Proof.
unfold bounded, canonical_mantissa, fexp, emin, prec, emax. intros H.
apply andb_prop in H. destruct H as [Hc He].
apply Z.eqb_eq in Hc. apply Z.leb_le in He.
pose proof (digits2_pos_bounds m) as Hd.
set (d := Z.pos (digits2_pos m)) in *.
assert (Hd53 : d <= 53) by lia.
assert (2 ^ d <= 2 ^ 53) by (apply Z.pow_le_mono_r; lia).
split; [lia|]. split; [lia|].
destruct (Z.eq_dec e (-1074)); [now left|right].
assert (d = 53) as Hd' by lia. rewrite Hd' in Hd. exact (proj1 Hd).
Qed.

(** The value of a non-negative finite binary64 number, in units of
    [2^-1074], the smallest positive one. *)
Definition sf_val (x : spec_float) : Z :=
  match x with
  | S754_finite false m e => Z.pos m * 2 ^ (e + 1074)
  | _ => 0
  end.

(** Non-negative and finite. *)
Definition sf_fin (x : spec_float) : Prop :=
  match x with
  | S754_zero _ => True
  | S754_finite false _ _ => True
  | _ => False
  end.

Lemma pow2_pos k : 0 < 2 ^ k \/ k < 0.
Proof. destruct (Z_lt_le_dec k 0); [now right|left; apply Z.pow_pos_nonneg; lia]. Qed.

Lemma pow2_split a b : 0 <= a -> 0 <= b -> 2 ^ (a + b) = 2 ^ a * 2 ^ b.
Proof. intros. now apply Z.pow_add_r. Qed.

(** On canonical numbers a smaller exponent means a smaller value. *)
Lemma canonical_lex m1 e1 m2 e2 :
  bounded prec emax m1 e1 = true -> bounded prec emax m2 e2 = true ->
  e1 < e2 -> Z.pos m1 * 2 ^ (e1 + 1074) < Z.pos m2 * 2 ^ (e2 + 1074).
Proof.
intros H1 H2 Hlt.
apply canonical_bounds in H1, H2.
destruct H1 as (He1 & Hm1 & _), H2 as (He2 & _ & [->|Hm2]); [exfalso; lia|].
replace (e2 + 1074) with ((e1 + 1074) + (e2 - e1)) by lia.
rewrite (pow2_split (e1 + 1074) (e2 - e1)) by lia.
assert (0 < 2 ^ (e1 + 1074)) by (apply Z.pow_pos_nonneg; lia).
assert (2 ^ 1 <= 2 ^ (e2 - e1)) by (apply Z.pow_le_mono_r; lia).
change (2 ^ 1) with 2 in *. change (2 ^ 53) with (2 * 2 ^ 52) in Hm1.
set (W := 2 ^ (e1 + 1074)) in *. set (P := 2 ^ (e2 - e1)) in *.
assert (HK : 0 < 2 ^ 52) by reflexivity. set (K := 2 ^ 52) in *.
apply Z.lt_le_trans with (2 * K * W); [nia|].
apply Z.le_trans with (K * (W * 2)); [lia|].
apply Z.mul_le_mono_nonneg; nia.
Qed.

Lemma sf_val_pos m e :
  bounded prec emax m e = true -> 0 < sf_val (S754_finite false m e).
Proof.
intros H. apply canonical_bounds in H. cbn [sf_val].
apply Z.mul_pos_pos; [lia|apply Z.pow_pos_nonneg; lia].
Qed.

(** Comparing canonical non-negative numbers is comparing their values. *)
Lemma SFcompare_val x y :
  valid_binary x = true -> valid_binary y = true ->
  sf_fin x -> sf_fin y ->
  SFcompare x y = Some (sf_val x ?= sf_val y).
Proof.
destruct x as [sx|sx| |[|] mx ex], y as [sy|sy| |[|] my ey];
  cbn [sf_fin valid_binary]; intros Hx Hy Fx Fy; try contradiction.
- reflexivity.
- pose proof (sf_val_pos _ _ Hy) as Hp. cbn [SFcompare].
  change (sf_val (S754_zero sx)) with 0.
  destruct (Z.compare_spec 0 (sf_val (S754_finite false my ey))); (reflexivity || lia).
- pose proof (sf_val_pos _ _ Hx) as Hp. cbn [SFcompare].
  change (sf_val (S754_zero sy)) with 0.
  destruct (Z.compare_spec (sf_val (S754_finite false mx ex)) 0); (reflexivity || lia).
- cbn [SFcompare sf_val].
  destruct (Z.compare_spec ex ey) as [->|Hlt|Hgt].
  + change (Pos.compare_cont Eq mx my) with (mx ?= my)%positive.
    apply canonical_bounds in Hy.
    assert (0 < 2 ^ (ey + 1074)) by (apply Z.pow_pos_nonneg; lia).
    f_equal. rewrite Pos2Z.inj_compare. symmetry.
    destruct (Z.compare_spec (Z.pos mx) (Z.pos my)) as [E|L|L].
    * rewrite E. apply Z.compare_refl.
    * apply Z.compare_lt_iff. now apply Z.mul_lt_mono_pos_r.
    * apply Z.compare_gt_iff. now apply Z.mul_lt_mono_pos_r.
  + pose proof (canonical_lex _ _ _ _ Hx Hy Hlt). f_equal. symmetry.
    now apply Z.compare_lt_iff.
  + pose proof (canonical_lex _ _ _ _ Hy Hx ltac:(lia)). f_equal. symmetry.
    apply Z.compare_gt_iff. lia.
Qed.

(** Nothing has been shifted out. *)
Definition shr_exact (mrs : shr_record) : Prop :=
  shr_r mrs = false /\ shr_s mrs = false.

Lemma divide_div a b m : 0 < a -> (a * b | m) -> (a | m) /\ (b | m / a).
Proof.
intros Ha [k ->]. split; [exists (k * b); ring|].
replace (k * (a * b)) with (k * b * a) by ring.
rewrite Z.div_mul by lia. now exists k.
Qed.

Lemma shr_1_exact mrs :
  shr_exact mrs -> 0 <= shr_m mrs -> (2 | shr_m mrs) -> shr_exact (shr_1 mrs).
Proof.
destruct mrs as [m r s]. unfold shr_exact. cbn [shr_m shr_r shr_s].
intros [-> ->] Hm [k Hk].
destruct m as [|[p|p|]|p]; cbn; try (split; reflexivity); lia.
Qed.

Lemma iter_shr_1_exact p : forall mrs,
  shr_exact mrs -> 0 <= shr_m mrs -> (2 ^ Z.pos p | shr_m mrs) ->
  shr_exact (iter_pos shr_1 p mrs).
Proof.
assert (Hpow : forall q, 0 < 2 ^ Z.pos q) by (intros; apply Z.pow_pos_nonneg; lia).
induction p as [p IH|p IH|]; intros mrs He Hm Hd; cbn [iter_pos].
- rewrite pow2_xI in Hd. pose proof (Hpow p) as Hp.
  destruct (divide_div 2 _ _ ltac:(lia) Hd) as [H2 Hd'].
  destruct (divide_div _ _ _ Hp Hd') as [Hd1 Hd2].
  assert (He1 : shr_exact (shr_1 mrs)) by now apply shr_1_exact.
  assert (Hm1 : shr_m (shr_1 mrs) = shr_m mrs / 2) by now apply shr_1_m.
  assert (0 <= shr_m mrs / 2) by (apply Z.div_pos; lia).
  apply IH.
  + apply IH; [assumption| |]; rewrite Hm1; assumption.
  + rewrite iter_shr_1_m, Hm1 by (rewrite Hm1; assumption).
    apply Z.div_pos; lia.
  + rewrite iter_shr_1_m, Hm1 by (rewrite Hm1; assumption). exact Hd2.
- rewrite pow2_xO in Hd. pose proof (Hpow p) as Hp.
  destruct (divide_div _ _ _ Hp Hd) as [Hd1 Hd2].
  apply IH.
  + now apply IH.
  + rewrite iter_shr_1_m by assumption. apply Z.div_pos; lia.
  + rewrite iter_shr_1_m by assumption. exact Hd2.
- apply shr_1_exact; assumption.
Qed.

Lemma shr_fexp_exact m e :
  0 <= m ->
  (2 ^ (Z.max e (fexp prec emax (Zdigits2 m + e)) - e) | m) ->
  shr_exact (fst (shr_fexp prec emax m e loc_Exact)).
Proof.
intros Hm. unfold shr_fexp, shr.
destruct (fexp prec emax (Zdigits2 m + e) - e) as [|k|k] eqn:Ek; cbn [fst];
  intros Hd; try (split; reflexivity).
apply iter_shr_1_exact; [split; reflexivity|exact Hm|].
cbn [shr_record_of_loc shr_m].
replace (Z.pos k) with (Z.max e (fexp prec emax (Zdigits2 m + e)) - e) by lia.
exact Hd.
Qed.

(** Rounding an exact number: as [binary_round_aux_spec], and a mantissa
    that loses nothing in the shift is kept. *)
Lemma binary_round_aux_exact sx mx ex :
  0 <= mx ->
  let e1 := Z.max ex (fexp prec emax (Zdigits2 mx + ex)) in
  exists m1,
    mx / 2 ^ (e1 - ex) <= m1 <= mx / 2 ^ (e1 - ex) + 1 /\
    ((2 ^ (e1 - ex) | mx) -> m1 = mx / 2 ^ (e1 - ex)) /\
    let e2 := Z.max e1 (fexp prec emax (Zdigits2 m1 + e1)) in
    binary_round_aux prec emax sx mx ex loc_Exact =
    match m1 / 2 ^ (e2 - e1) with
    | Z0 => S754_zero sx
    | Zpos m => if e2 <=? emax - prec then S754_finite sx m e2
                else S754_infinity sx
    | Zneg _ => S754_nan
    end.
Proof.
intros Hmx e1. unfold binary_round_aux.
destruct (shr_fexp_spec mx ex loc_Exact Hmx) as [He1 Hm1].
pose proof (shr_fexp_exact mx ex Hmx) as Hex.
destruct (shr_fexp prec emax mx ex loc_Exact) as [mrs1 e1'].
cbn [fst snd] in He1, Hm1, Hex. fold e1 in He1, Hm1, Hex. subst e1'.
set (m1 := round_nearest_even (shr_m mrs1) (loc_of_shr_record mrs1)).
exists m1.
pose proof (round_nearest_even_bounds (shr_m mrs1) (loc_of_shr_record mrs1)) as Hb.
fold m1 in Hb. rewrite Hm1 in Hb. split; [exact Hb|].
split.
{ intros Hd. specialize (Hex Hd). unfold m1.
  destruct mrs1 as [m r s]. destruct Hex as [Hr Hs]. cbn in Hr, Hs. subst.
  cbn in *. exact Hm1. }
assert (Hm1' : 0 <= m1).
{ assert (0 <= mx / 2 ^ (e1 - ex)); [|lia].
  apply Z.div_pos; [assumption|apply Z.pow_pos_nonneg; lia]. }
destruct (shr_fexp_spec m1 e1 loc_Exact Hm1') as [He2 Hm2].
destruct (shr_fexp prec emax m1 e1 loc_Exact) as [mrs2 e2'].
cbn [fst snd] in He2, Hm2. cbn zeta. now rewrite Hm2, He2.
Qed.

Lemma pow2_lt_inv a b : 2 ^ a < 2 ^ b -> 0 <= b -> a < b.
Proof. intros H Hb. apply (Z.pow_lt_mono_r_iff 2); lia. Qed.

(** The result of rounding a positive number given with an exponent at or
    below its canonical one: the mantissa [m1] after the shift to the
    canonical exponent [e1], renormalised when it has grown to [2^53]. *)
Lemma round_shape mx ex :
  ex <= fexp prec emax (Z.pos (digits2_pos mx) + ex) ->
  let e1 := fexp prec emax (Z.pos (digits2_pos mx) + ex) in
  let q := Z.pos mx / 2 ^ (e1 - ex) in
  let z := binary_round_aux prec emax false (Z.pos mx) ex loc_Exact in
  exists m1,
    q <= m1 <= q + 1 /\ q < 2 ^ 53 /\
    ((2 ^ (e1 - ex) | Z.pos mx) -> m1 = q) /\
    ((m1 = 0 /\ z = S754_zero false) \/
     exists m2 e2,
       z = (if e2 <=? 971 then S754_finite false m2 e2
            else S754_infinity false) /\
       ((e2 = e1 /\ Z.pos m2 = m1) \/
        (e2 = e1 + 1 /\ Z.pos m2 = 2 ^ 52 /\ m1 = 2 ^ 53))).
Proof.
intros Hal e1 q z.
destruct (binary_round_aux_exact false (Z.pos mx) ex ltac:(lia))
  as (m1 & Hq & Hex & E).
cbn zeta in E. cbn [Zdigits2] in Hq, Hex, E.
replace (Z.max ex (fexp prec emax (Z.pos (digits2_pos mx) + ex))) with e1
  in Hq, Hex, E by (unfold e1; lia).
fold q in Hq, Hex. fold z in E.
pose proof (digits2_pos_bounds mx) as Hd.
set (d := Z.pos (digits2_pos mx)) in *.
assert (He1 : e1 = Z.max (d + ex - 53) (-1074)) by reflexivity.
assert (Hsh : 0 <= e1 - ex) by lia.
assert (Hpsh : 0 < 2 ^ (e1 - ex)) by (apply Z.pow_pos_nonneg; lia).
assert (Hq0 : 0 <= q) by (apply Z.div_pos; lia).
assert (Hq53 : q < 2 ^ 53).
{ apply Z.div_lt_upper_bound; [exact Hpsh|].
  rewrite <- Z.pow_add_r by lia.
  apply Z.lt_le_trans with (2 ^ d); [lia|].
  apply Z.pow_le_mono_r; lia. }
exists m1. split; [exact Hq|]. split; [exact Hq53|]. split; [exact Hex|].
destruct m1 as [|p1|p1]; [left|right|lia].
- split; [reflexivity|]. rewrite E. now rewrite Z.div_0_l by lia.
- pose proof (digits2_pos_bounds p1) as Hd1.
  cbn [Zdigits2] in E. set (d1 := Z.pos (digits2_pos p1)) in *.
  assert (Hd1pos : 0 < d1) by (unfold d1; lia).
  unfold fexp, emin, prec, emax in E.
  destruct (Z_lt_le_dec (Z.pos p1) (2 ^ 53)) as [Hlt|Hge].
  + assert (d1 <= 53).
    { assert (d1 - 1 < 53); [|lia]. apply pow2_lt_inv; lia. }
    replace (Z.max e1 (Z.max (d1 + e1 - 53) (3 - 1024 - 53))) with e1 in E by lia.
    rewrite Z.sub_diag, Z.pow_0_r, Z.div_1_r in E.
    exists p1, e1. split; [exact E|]. left. now split.
  + assert (Hp1 : Z.pos p1 = 2 ^ 53) by lia.
    assert (d1 = 54).
    { assert (53 < d1) by (apply pow2_lt_inv; lia).
      assert (d1 - 1 < 54); [|lia]. apply pow2_lt_inv; [|lia].
      apply Z.le_lt_trans with (Z.pos p1); [lia|]. rewrite Hp1. reflexivity. }
    replace (Z.max e1 (Z.max (d1 + e1 - 53) (3 - 1024 - 53))) with (e1 + 1)
      in E by lia.
    replace (e1 + 1 - e1) with 1 in E by lia. rewrite Hp1 in E.
    change (2 ^ 53 / 2 ^ 1) with (Z.pos (2 ^ 52)) in E.
    exists (2 ^ 52)%positive, (e1 + 1). split; [exact E|]. right.
    split; [reflexivity|split; [reflexivity|exact Hp1]].
Qed.

Lemma SFleb_finite m1 e1 m2 e2 :
  e1 < e2 \/ (e1 = e2 /\ Z.pos m1 <= Z.pos m2) ->
  SFleb (S754_finite false m1 e1) (S754_finite false m2 e2) = true.
Proof.
intros H. unfold SFleb, SFcompare.
destruct (Z.compare_spec e1 e2); [|reflexivity|lia].
change (Pos.compare_cont Eq m1 m2) with (m1 ?= m2)%positive.
destruct (Pos.compare_spec m1 m2); [reflexivity|reflexivity|lia].
Qed.

(** Round to nearest does not cross a binary64 number: the rounded result
    stays on the side of a canonical [c] the exact number is on.  The numbers
    are compared in units of [2^-b]. *)
Lemma round_bracket b mx ex mc ec :
  0 <= ex + b -> 1074 <= b ->
  ex <= fexp prec emax (Z.pos (digits2_pos mx) + ex) ->
  bounded prec emax mc ec = true ->
  let z := binary_round_aux prec emax false (Z.pos mx) ex loc_Exact in
  (Z.pos mc * 2 ^ (ec + b) <= Z.pos mx * 2 ^ (ex + b) ->
   SFleb (S754_finite false mc ec) z = true) /\
  (Z.pos mx * 2 ^ (ex + b) <= Z.pos mc * 2 ^ (ec + b) ->
   SFleb z (S754_finite false mc ec) = true).
Proof.
intros Hb0 Hb Hal Hc z.
destruct (round_shape mx ex Hal) as (m1 & Hq & Hq53 & Hex & Hz). fold z in Hz.
pose proof (canonical_bounds _ _ Hc) as (Hec & Hmc & Hmc').
pose proof (digits2_pos_bounds mx) as Hd.
set (d := Z.pos (digits2_pos mx)) in *.
set (e1 := fexp prec emax (d + ex)) in *.
assert (He1 : e1 = Z.max (d + ex - 53) (-1074)) by reflexivity.
assert (Hd0 : 0 < d) by (unfold d; lia).
assert (Hsh : 0 <= e1 - ex) by lia.
set (sh := e1 - ex) in *.
set (q := Z.pos mx / 2 ^ sh) in *.
assert (HS : 0 < 2 ^ sh) by (apply Z.pow_pos_nonneg; lia).
assert (HW : 0 < 2 ^ (ex + b)) by (apply Z.pow_pos_nonneg; lia).
set (W := 2 ^ (ex + b)) in *.
assert (HV1 : 2 ^ (d - 1 + (ex + b)) <= Z.pos mx * W).
{ rewrite Z.pow_add_r by lia. fold W. nia. }
assert (HV2 : Z.pos mx * W < 2 ^ (d + (ex + b))).
{ rewrite Z.pow_add_r by lia. fold W. nia. }
assert (HC1 : Z.pos mc * 2 ^ (ec + b) < 2 ^ (53 + (ec + b))).
{ rewrite (Z.pow_add_r 2 53) by lia.
  assert (0 < 2 ^ (ec + b)) by (apply Z.pow_pos_nonneg; lia). nia. }
assert (Hqm : q * 2 ^ sh <= Z.pos mx).
{ unfold q. rewrite Z.mul_comm. apply Z.mul_div_le. exact HS. }
split; intros Hle.
- (* the number is at least [c] *)
  assert (Hee : ec <= e1).
  { destruct Hmc' as [->|Hmc']; [lia|].
    assert (52 + (ec + b) < d + (ex + b)); [|lia].
    apply pow2_lt_inv; [|lia].
    apply Z.le_lt_trans with (Z.pos mc * 2 ^ (ec + b)); [|lia].
    rewrite (Z.pow_add_r 2 52) by lia.
    assert (0 < 2 ^ (ec + b)) by (apply Z.pow_pos_nonneg; lia). nia. }
  assert (Hcq : ec = e1 -> Z.pos mc <= q).
  { intros ->. apply Z.div_le_lower_bound; [exact HS|].
    replace (e1 + b) with ((ex + b) + sh) in Hle by (unfold sh; lia).
    rewrite Z.pow_add_r in Hle by lia. fold W in Hle. nia. }
  assert (Hq1 : 1 <= q).
  { destruct (Z.eq_dec ec e1) as [E|NE]; [specialize (Hcq E); lia|].
    assert (Hsh' : sh = d - 53) by (unfold sh; lia).
    apply Z.div_le_lower_bound; [exact HS|]. rewrite Z.mul_1_r.
    apply Z.le_trans with (2 ^ (d - 1)); [|lia].
    apply Z.pow_le_mono_r; lia. }
  destruct Hz as [[Hm1 _]|(m2 & e2 & -> & Hz)]; [lia|].
  destruct (e2 <=? 971); [|reflexivity].
  apply SFleb_finite.
  destruct Hz as [[-> Hm2]|[-> _]]; [|left; lia].
  destruct (Z.eq_dec ec e1) as [E|NE]; [right|left; lia].
  split; [exact E|]. specialize (Hcq E). lia.
- (* the number is at most [c] *)
  assert (Hee : e1 <= ec).
  { assert (d - 1 + (ex + b) < 53 + (ec + b)); [|lia].
    apply pow2_lt_inv; lia. }
  assert (HP : 0 < 2 ^ (ec - e1)) by (apply Z.pow_pos_nonneg; lia).
  set (K := Z.pos mc * 2 ^ (ec - e1)).
  assert (HK : Z.pos mx <= K * 2 ^ sh).
  { replace (ec + b) with ((ex + b) + sh + (ec - e1)) in Hle by (unfold sh; lia).
    rewrite !Z.pow_add_r in Hle by lia. fold W in Hle. unfold K. nia. }
  assert (HqK : q <= K).
  { apply Z.div_le_upper_bound; [exact HS|]. lia. }
  assert (Hm1K : m1 <= K).
  { destruct (Z.eq_dec q K) as [E|NE]; [|lia].
    rewrite Hex; [lia|]. exists K. rewrite E in Hqm. lia. }
  destruct Hz as [[_ ->]|(m2 & e2 & -> & Hz)]; [reflexivity|].
  destruct Hz as [[-> Hm2]|(-> & Hm2 & Hm1)].
  + destruct (Z.leb_spec e1 971); [|lia].
    apply SFleb_finite.
    destruct (Z.eq_dec e1 ec) as [E|NE]; [right|left; lia].
    split; [exact E|]. unfold K in Hm1K.
    rewrite E, Z.sub_diag, Z.pow_0_r in Hm1K. lia.
  + assert (Hne : e1 <> ec).
    { intros E. unfold K in Hm1K.
      rewrite E, Z.sub_diag, Z.pow_0_r in Hm1K. lia. }
    destruct (Z.leb_spec (e1 + 1) 971); [|lia].
    apply SFleb_finite.
    destruct (Z.eq_dec (e1 + 1) ec) as [E|NE]; [right|left; lia].
    split; [exact E|]. unfold K in Hm1K.
    replace (ec - e1) with 1 in Hm1K by lia.
    change (2 ^ 1) with 2 in Hm1K. rewrite Hm2.
    change (2 ^ 53) with (2 * 2 ^ 52) in Hm1. lia.
Qed.

Lemma shl_align_spec m e e' :
  snd (shl_align m e e') = Z.min e e' /\
  Z.pos (fst (shl_align m e e')) = Z.pos m * 2 ^ (e - Z.min e e').
Proof.
unfold shl_align. destruct (e' - e) as [|k|k] eqn:Ek; cbn [fst snd].
- replace (Z.min e e') with e by lia. rewrite Z.sub_diag. cbn. lia.
- replace (Z.min e e') with e by lia. rewrite Z.sub_diag. cbn. lia.
- replace (Z.min e e') with e' by lia. split; [reflexivity|].
  rewrite iter_xO. do 2 f_equal. lia.
Qed.

Lemma digits2_shift m m' k :
  0 <= k -> Z.pos m' = Z.pos m * 2 ^ k ->
  Z.pos (digits2_pos m') = Z.pos (digits2_pos m) + k.
Proof.
intros Hk E.
pose proof (digits2_pos_bounds m) as Hd. pose proof (digits2_pos_bounds m') as Hd'.
set (d := Z.pos (digits2_pos m)) in *. set (d' := Z.pos (digits2_pos m')) in *.
assert (0 < d) by (unfold d; lia). assert (0 < d') by (unfold d'; lia).
assert (HP : 0 < 2 ^ k) by (apply Z.pow_pos_nonneg; lia).
assert (H1 : 2 ^ (d - 1 + k) <= Z.pos m') by (rewrite Z.pow_add_r by lia; nia).
assert (H2 : Z.pos m' < 2 ^ (d + k)) by (rewrite Z.pow_add_r by lia; nia).
assert (d - 1 + k < d') by (apply pow2_lt_inv; lia).
assert (d' - 1 < d + k) by (apply pow2_lt_inv; lia).
lia.
Qed.

(** [round_bracket] for [binary_round], which aligns its argument itself. *)
Lemma binary_round_bracket b m e mc ec :
  0 <= e + b -> 1074 <= b ->
  bounded prec emax mc ec = true ->
  let z := binary_round prec emax false m e in
  (Z.pos mc * 2 ^ (ec + b) <= Z.pos m * 2 ^ (e + b) ->
   SFleb (S754_finite false mc ec) z = true) /\
  (Z.pos m * 2 ^ (e + b) <= Z.pos mc * 2 ^ (ec + b) ->
   SFleb z (S754_finite false mc ec) = true).
Proof.
intros Hb0 Hb Hc. unfold binary_round.
set (e' := fexp prec emax (Z.pos (digits2_pos m) + e)).
destruct (shl_align_spec m e e') as [He Hm].
destruct (shl_align m e e') as [mz ez]. cbn [fst snd] in He, Hm.
assert (He' : -1074 <= e') by (unfold e', fexp, emin, prec, emax; lia).
assert (Hd : Z.pos (digits2_pos mz) = Z.pos (digits2_pos m) + (e - ez))
  by (apply digits2_shift; [lia|now rewrite He]).
assert (Hv : Z.pos mz * 2 ^ (ez + b) = Z.pos m * 2 ^ (e + b)).
{ rewrite Hm, <- He, <- Z.mul_assoc, <- Z.pow_add_r by lia.
  do 2 f_equal. lia. }
rewrite <- Hv. apply round_bracket; [lia|exact Hb| |exact Hc].
rewrite Hd. replace (Z.pos (digits2_pos m) + (e - ez) + ez)
  with (Z.pos (digits2_pos m) + e) by lia.
fold e'. lia.
Qed.

(** ** The order of binary64 numbers *)

Definition not_nan (x : float) : Prop := Prim2SF x <> S754_nan.

Lemma SFcompare_antisym x y :
  SFcompare y x = option_map CompOpp (SFcompare x y).
Proof.
destruct x as [sx|sx| |sx mx ex], y as [sy|sy| |sy my ey]; cbn;
  try reflexivity; try (now destruct sx); try (now destruct sy);
  try (now destruct sx, sy).
destruct sx, sy; try reflexivity; cbn.
- rewrite (Z.compare_antisym ey ex).
  destruct (ey ?= ex); cbn; try reflexivity.
  pose proof (Pos.compare_cont_antisym mx my Eq) as H. cbn [CompOpp] in H.
  rewrite <- H. now destruct (Pos.compare_cont Eq mx my).
- rewrite (Z.compare_antisym ey ex).
  destruct (ey ?= ex); cbn; try reflexivity.
  pose proof (Pos.compare_cont_antisym mx my Eq) as H. cbn [CompOpp] in H.
  rewrite <- H. now destruct (Pos.compare_cont Eq mx my).
Qed.

Lemma ltb_leb x y : (x <? y)%float = true -> fle x y.
Proof.
unfold fle. rewrite ltb_spec, leb_spec. unfold SFltb, SFleb.
now destruct (SFcompare (Prim2SF x) (Prim2SF y)) as [[| |]|].
Qed.

Lemma ltb_false_leb x y :
  not_nan x -> not_nan y -> (x <? y)%float = false -> fle y x.
Proof.
unfold fle, not_nan. rewrite ltb_spec, leb_spec. unfold SFltb, SFleb.
rewrite (SFcompare_antisym (Prim2SF x) (Prim2SF y)).
intros Hx Hy.
destruct (SFcompare (Prim2SF x) (Prim2SF y)) as [[| |]|] eqn:E; cbn;
  try reflexivity; try discriminate.
intros _.
destruct (Prim2SF x) as [sx|sx| |sx mx ex], (Prim2SF y) as [sy|sy| |sy my ey];
  try discriminate E; congruence.
Qed.

Lemma binary_round_aux_not_nan sx mx ex lx :
  0 <= mx -> binary_round_aux prec emax sx mx ex lx <> S754_nan.
Proof.
intros Hmx.
destruct (binary_round_aux_spec sx mx ex lx Hmx) as (m1 & Hb & E).
cbn zeta in E. rewrite E.
set (e1 := Z.max ex (fexp prec emax (Zdigits2 mx + ex))) in *.
set (e2 := Z.max e1 (fexp prec emax (Zdigits2 m1 + e1))) in *.
assert (0 <= m1 / 2 ^ (e2 - e1)).
{ apply Z.div_pos; [|apply Z.pow_pos_nonneg; lia].
  assert (0 <= mx / 2 ^ (e1 - ex)); [|lia].
  apply Z.div_pos; [assumption|apply Z.pow_pos_nonneg; lia]. }
destruct (m1 / 2 ^ (e2 - e1)); [discriminate| |lia].
now destruct (e2 <=? emax - prec).
Qed.

Lemma binary_normalize_not_nan m e :
  binary_normalize prec emax m e false <> S754_nan.
Proof.
destruct m as [|p|p]; cbn [binary_normalize]; [discriminate| |];
  unfold binary_round; destruct (shl_align p e _) as [mz ez];
  apply binary_round_aux_not_nan; lia.
Qed.

(** A finite number, by the specification of [is_finite]. *)
Lemma is_finite_sf x :
  is_finite x = true ->
  match Prim2SF x with
  | S754_zero _ | S754_finite _ _ _ => True
  | _ => False
  end.
Proof.
unfold is_finite, is_nan, is_infinity.
rewrite !eqb_spec, abs_spec.
change (Prim2SF infinity) with (S754_infinity false).
destruct (Prim2SF x) as [s|[|]| |s m e]; cbn; try tauto; discriminate.
Qed.

(** The difference of two finite numbers is a number. *)
Lemma sub_not_nan x y :
  is_finite x = true -> is_finite y = true -> not_nan (x - y).
Proof.
intros Hx Hy. apply is_finite_sf in Hx, Hy. unfold not_nan.
rewrite sub_spec. unfold SF64sub.
destruct (Prim2SF x) as [sx|sx| |sx mx ex]; try contradiction;
  destruct (Prim2SF y) as [sy|sy| |sy my ey]; try contradiction;
  cbn [SFsub]; try discriminate.
- now destruct sx, sy.
- apply binary_normalize_not_nan.
Qed.

(** ** [sorted] and [statistics.median] *)

Lemma insert_sorted_perm x l : Permutation (x :: l) (insert_sorted x l).
Proof.
induction l as [|y l IH]; cbn [insert_sorted]; [reflexivity|].
destruct (x <? y)%float; [reflexivity|].
rewrite perm_swap. now constructor.
Qed.

Lemma fold_insert_perm data : forall acc,
  Permutation (data ++ acc)
              (fold_left (fun acc x => insert_sorted x acc) data acc).
Proof.
induction data as [|x data IH]; intros acc; cbn [fold_left app]; [reflexivity|].
rewrite <- IH. rewrite <- insert_sorted_perm. apply Permutation_middle.
Qed.

Lemma sorted_perm data : Permutation data (sorted data).
Proof.
unfold sorted. rewrite <- fold_insert_perm. now rewrite app_nil_r.
Qed.

Lemma insert_sorted_HdRel y x l :
  fle y x -> HdRel fle y l -> HdRel fle y (insert_sorted x l).
Proof.
intros Hyx Hl. destruct l as [|z l]; cbn [insert_sorted]; [now constructor|].
destruct (x <? z)%float; [now constructor|].
constructor. now inversion Hl.
Qed.

Lemma insert_sorted_Sorted x l :
  not_nan x -> Forall not_nan l -> Sorted fle l ->
  Sorted fle (insert_sorted x l).
Proof.
intros Hx. induction l as [|y l IH]; intros Hl Hs; cbn [insert_sorted].
- repeat constructor.
- inversion Hl as [|? ? Hy Hl']; subst. inversion Hs as [|? ? Hs' Hd]; subst.
  destruct (x <? y)%float eqn:E.
  + constructor; [exact Hs|]. constructor. now apply ltb_leb.
  + constructor; [now apply IH|].
    apply insert_sorted_HdRel; [|exact Hd]. now apply ltb_false_leb.
Qed.

Lemma fold_insert_Sorted data : forall acc,
  Forall not_nan data -> Forall not_nan acc -> Sorted fle acc ->
  Sorted fle (fold_left (fun acc x => insert_sorted x acc) data acc).
Proof.
induction data as [|x data IH]; intros acc Hd Ha Hs; cbn [fold_left];
  [exact Hs|].
inversion Hd as [|? ? Hx Hd']; subst.
apply IH; [exact Hd'| |now apply insert_sorted_Sorted].
apply (Permutation_Forall (insert_sorted_perm x acc)). now constructor.
Qed.

Lemma sorted_Sorted data : Forall not_nan data -> Sorted fle (sorted data).
Proof.
intros Hd. apply fold_insert_Sorted; [exact Hd|constructor|constructor].
Qed.

Lemma parity_of_nat k :
  Z.odd (Z.of_nat k) = Nat.odd k /\ Z.even (Z.of_nat k) = Nat.even k.
Proof.
induction k as [|k [IHo IHe]]; [now split|].
rewrite Nat2Z.inj_succ, Z.odd_succ, Z.even_succ, Nat.odd_succ, Nat.even_succ.
now split.
Qed.

(** What the code computes is the median of the specification. *)
Lemma median_value_is_median data :
  data <> [] -> Forall not_nan data -> is_median data (median_value data).
Proof.
intros Hne Hd. split; [exact Hne|].
exists (sorted data).
split; [apply sorted_perm|]. split; [now apply sorted_Sorted|].
cbn zeta. unfold median_value.
set (l := sorted data). set (k := length l).
rewrite <- Zodd_mod, (proj1 (parity_of_nat k)).
assert (E : Z.to_nat (Z.of_nat k / 2) = (k / 2)%nat).
{ change 2 with (Z.of_nat 2). now rewrite <- Nat2Z.inj_div, Nat2Z.id. }
rewrite E.
assert (E' : Z.to_nat (Z.of_nat k / 2 - 1) = (k / 2 - 1)%nat).
{ rewrite Z2Nat.inj_sub by lia. now rewrite E. }
rewrite E'. reflexivity.
Qed.

(** ** A logic of runs that may raise *)

Section ExceptionLogic.

Context {St : Type}.

Lemma wpe_ret {A} (a : A) (Q : A -> St -> Prop) R s :
  Q a s -> wpe (ret a) Q R s.
Proof. exact (fun H => H). Qed.

Lemma wpe_bind {A B} (m : Comp St A) (k : A -> Comp St B) Q R s :
  wpe m (fun a s' => wpe (k a) Q R s') R s -> wpe (bind m k) Q R s.
Proof.
  unfold wpe, bind. destruct (m s) as [[a s']|e]; exact (fun H => H).
Qed.

Lemma wpe_mono {A} (m : Comp St A) (Q Q' : A -> St -> Prop) R s :
  (forall a s', Q a s' -> Q' a s') -> wpe m Q R s -> wpe m Q' R s.
Proof.
  unfold wpe. intros HQ. destruct (m s) as [[a s']|e]; [apply HQ|tauto].
Qed.

Lemma wpe_ok {A} (m : Comp St A) (Q : A -> St -> Prop) R s a s' :
  m s = Ok (a, s') -> Q a s' -> wpe m Q R s.
Proof. unfold wpe. now intros ->. Qed.

(** A run knows its own result. *)
Lemma wpe_run {A} (m : Comp St A) (Q : A -> St -> Prop) R s :
  raises_in R m ->
  (forall a s', m s = Ok (a, s') -> Q a s') -> wpe m Q R s.
Proof.
  unfold wpe. intros HR HQ. specialize (HR s).
  destruct (m s) as [[a s']|e]; [now apply HQ|now apply HR].
Qed.

Lemma wpe_for_each {A S} (body : A -> S -> Comp St S)
      (I : list A -> S -> St -> Prop) R xs :
  forall done acc s,
    I done acc s ->
    (forall pre x post acc s,
        done ++ xs = pre ++ x :: post ->
        I pre acc s -> wpe (body x acc) (I (pre ++ [x])) R s) ->
    wpe (for_each xs body acc) (I (done ++ xs)) R s.
Proof.
  induction xs as [|x xs IH]; intros done acc s Hinit Hstep; cbn [for_each].
  - apply wpe_ret. now rewrite app_nil_r.
  - apply wpe_bind.
    apply wpe_mono with (Q := I (done ++ [x])).
    + intros acc' s' HI.
      replace (done ++ x :: xs) with ((done ++ [x]) ++ xs)
        by now rewrite <- app_assoc.
      apply IH; [exact HI|].
      intros pre y post acc0 s0 Heq. apply Hstep with (post := post).
      now rewrite <- Heq, <- app_assoc.
    + now apply (Hstep done x xs).
Qed.

Lemma raises_in_ret {A} R (a : A) : raises_in R (ret (St := St) a).
Proof. intros s e H. discriminate H. Qed.

Lemma raises_in_bind {A B} R (m : Comp St A) (k : A -> Comp St B) :
  raises_in R m -> (forall a, raises_in R (k a)) -> raises_in R (bind m k).
Proof.
  intros Hm Hk s e. unfold bind. specialize (Hm s).
  destruct (m s) as [[a s']|e']; [apply Hk|].
  intros [= <-]. now apply Hm.
Qed.

Lemma raises_in_for_each {A S} R (body : A -> S -> Comp St S) xs :
  (forall x acc, raises_in R (body x acc)) ->
  forall acc, raises_in R (for_each xs body acc).
Proof.
  intros Hb. induction xs as [|x xs IH]; intros acc; cbn [for_each].
  - apply raises_in_ret.
  - apply raises_in_bind; [apply Hb | exact IH].
Qed.

Lemma measurements_sizes (measure : Z -> St -> list float -> St -> Prop)
      sizes s log s' :
  measurements measure sizes s log s' -> map fst log = sizes.
Proof.
  induction 1 as [|sizes s log s1 n times s2 _ IH _]; [reflexivity|].
  now rewrite map_app, IH.
Qed.

Lemma measurements_Forall (measure : Z -> St -> list float -> St -> Prop)
      (Pr : Z * list float -> Prop) sizes s log s' :
  (forall n s times s', measure n s times s' -> Pr (n, times)) ->
  measurements measure sizes s log s' -> Forall Pr log.
Proof.
  intros HP. induction 1 as [|sizes s log s1 n times s2 _ IH Hm];
    [constructor|].
  apply Forall_app. split; [exact IH|].
  constructor; [|constructor]. exact (HP _ _ _ _ Hm).
Qed.

End ExceptionLogic.

(** ** The benchmark script *)

(** The results dictionary that holds, for each entry of a log, its median
    in milliseconds. *)
Definition results_of (log : list (Z * list float)) : dict float :=
  map (fun e => (fst e, (median_value (snd e) * 1000.0)%float)) log.

(** The rows the script writes for a log. *)
Definition rows_of (module : string) (log : list (Z * list float))
  : list row :=
  map (fun e => [Str module; Int (fst e);
                 Flt (median_value (snd e) * 1000.0)%float]) log.

Lemma dict_lookup_entry {V} (d : dict V) k v :
  NoDup (dict_keys d) -> In (k, v) d -> dict_lookup d k = Some v.
Proof.
  induction d as [|[k' v'] d IH]; cbn; [tauto|].
  intros Hnd Hin. inversion Hnd as [|? ? Hk' Hnd']; subst.
  destruct Hin as [[= -> ->]|Hin]; [now rewrite Z.eqb_refl|].
  destruct (Z.eqb_spec k' k) as [->|Hne]; [|now apply IH].
  destruct Hk'. change k with (fst (k, v)). now apply in_map.
Qed.

Lemma results_keys log : dict_keys (results_of log) = map fst log.
Proof. unfold dict_keys, results_of. now rewrite map_map. Qed.

Lemma results_snoc log n times :
  ~ In n (map fst log) ->
  dict_set (results_of log) n (median_value times * 1000.0)%float =
  results_of (log ++ [(n, times)]).
Proof.
  intros Hn. rewrite dict_set_new by now rewrite results_keys.
  unfold results_of. now rewrite map_app.
Qed.

Lemma results_lookup log e :
  NoDup (map fst log) -> In e log ->
  dict_lookup (results_of log) (fst e)
  = Some (median_value (snd e) * 1000.0)%float.
Proof.
  intros Hnd Hin. apply dict_lookup_entry; [now rewrite results_keys|].
  unfold results_of.
  exact (in_map (fun e => (fst e, (median_value (snd e) * 1000.0)%float))
                log e Hin).
Qed.

(** The element a loop is at has not been visited, when the list has no
    duplicates. *)
Lemma loop_element_new {A} (xs pre post : list A) x :
  NoDup xs -> xs = pre ++ x :: post -> In x xs /\ ~ In x pre.
Proof.
  intros Hnd ->. split; [apply in_elt|].
  apply NoDup_remove_2 in Hnd. rewrite in_app_iff in Hnd. tauto.
Qed.

Lemma NoDup_DC_SIZES : NoDup DC_SIZES.
Proof. repeat constructor; cbn; lia. Qed.

Lemma NoDup_LOPF_SIZES : NoDup LOPF_SIZES.
Proof. repeat constructor; cbn; lia. Qed.

Lemma dc_runs_pos n : 0 < dc_runs n.
Proof. unfold dc_runs. now destruct (n <=? 100), (n <=? 500). Qed.

Lemma lopf_runs_pos n : 0 < lopf_runs n.
Proof. unfold lopf_runs. now destruct (n <=? 50), (n <=? 100). Qed.

(** The rows of a log whose times are numbers hold the medians. *)
Lemma rows_of_medians module log :
  Forall (fun e => snd e <> [] /\ Forall not_nan (snd e)) log ->
  median_rows module log (rows_of module log).
Proof.
  unfold median_rows, rows_of.
  induction 1 as [|e log [Hne Hnum] _ IH]; cbn [map]; constructor;
    [|exact IH].
  exists (median_value (snd e)).
  split; [now apply median_value_is_median|reflexivity].
Qed.

Section ScriptProofs.

Variable G : BitGenerator.
Variable P : Platform.
Hypothesis G_bounded : bounded_in_range G.

Local Open Scope comp_scope.

Let R := platform_raises P.

Lemma raises_in_on_world {A} (m : Comp (world P) A) :
  (forall w e, m w = Raise e -> R e) -> raises_in R (on_world G P m).
Proof.
  intros Hm [h w] e. unfold on_world. specialize (Hm w).
  destruct (m w) as [[a w']|e']; [discriminate|].
  intros [= <-]. now apply Hm.
Qed.

Lemma raises_in_add net c : raises_in R (on_world G P (add P net c)).
Proof.
  apply raises_in_on_world. intros w e H. left. now exists net, c, w.
Qed.

Lemma raises_in_lpf net : raises_in R (on_world G P (lpf P net)).
Proof.
  apply raises_in_on_world. intros w e H. right. left. now exists net, w.
Qed.

Lemma raises_in_optimize net : raises_in R (on_world G P (optimize P net)).
Proof.
  apply raises_in_on_world. intros w e H. do 2 right. left.
  now exists net, w.
Qed.

Lemma raises_in_open path mode newline :
  raises_in R (on_world G P (open_file P path mode newline)).
Proof.
  apply raises_in_on_world. intros w e H. do 3 right. left.
  now exists path, mode, newline, w.
Qed.

Lemma raises_in_writerow f r : raises_in R (on_world G P (writerow P f r)).
Proof.
  apply raises_in_on_world. intros w e H. do 4 right. left.
  now exists f, r, w.
Qed.

Lemma raises_in_close f : raises_in R (on_world G P (close P f)).
Proof.
  apply raises_in_on_world. intros w e H. do 5 right. now exists f, w.
Qed.

Lemma clock_returns s :
  exists t s', clock G P s = Ok (t, s').
Proof.
  destruct s as [h w].
  exists (fst (perf_counter P w)), (h, snd (perf_counter P w)).
  unfold clock, on_world. now destruct (perf_counter P w).
Qed.

Lemma raises_in_build n_buses lines generators loads capacity :
  raises_in R (build_pypsa_network G P n_buses lines generators loads
                                   capacity).
Proof.
  unfold build_pypsa_network.
  apply raises_in_bind; [|intros net].
  { apply raises_in_on_world. intros w e H. discriminate H. }
  apply raises_in_bind; [|intros _].
  { apply raises_in_for_each. intros bus []. apply raises_in_add. }
  apply raises_in_bind; [|intros _].
  { apply raises_in_for_each. intros [idx [[f t] x]] []. apply raises_in_add. }
  apply raises_in_bind; [|intros _].
  { apply raises_in_for_each. intros [bus p_max] []. apply raises_in_add. }
  apply raises_in_bind; [|intros _].
  { apply raises_in_for_each. intros [bus p] []. apply raises_in_add. }
  apply raises_in_ret.
Qed.

Lemma raises_in_run_lopf n_buses lines generators loads :
  raises_in R (run_lopf G P n_buses lines generators loads).
Proof.
  unfold run_lopf. apply raises_in_bind; [apply raises_in_build|].
  intros net. apply raises_in_optimize.
Qed.

(** [generate_network], called by the script on a size of two or more. *)
Lemma generate_network_returns n seed s :
  2 <= n -> 0 <= seed ->
  exists lines generators loads s',
    on_heap G P (generate_network G n seed) s
    = Ok ((n, lines, generators, loads), s').
Proof.
  intros Hn Hs. destruct s as [h w].
  destruct (@generate_network_spec G G_bounded n seed h Hn Hs)
    as (tree & extra & acc & h' & _ & E & _).
  unfold on_heap. rewrite E. now eexists _, _, _, _.
Qed.

(** [time_median] returns the median of the times of [n_runs] runs. *)
Lemma time_median_spec (func : Script G P unit) n_runs
      (Q : float * float -> Heap.t G * world P -> Prop) s :
  raises_in R func -> 0 < n_runs ->
  (forall times mn s',
      Z.of_nat (length times) = n_runs ->
      timed_runs (clock G P) func s times s' ->
      py_min times = Ok mn ->
      Q (median_value times, mn) s') ->
  wpe (time_median G P func n_runs) Q R s.
Proof.
  intros Hf Hn HQ. unfold time_median. apply wpe_bind.
  pose (I := fun (pre : list Z) (times : list float) s' =>
               length times = length pre /\
               timed_runs (clock G P) func s times s').
  apply wpe_mono with (Q := I ([] ++ range 0 n_runs)).
  - intros times s' [Hlen Hruns]. cbn [app] in Hlen.
    rewrite range_length in Hlen.
    assert (Hlen' : Z.of_nat (length times) = n_runs) by lia.
    apply wpe_bind. unfold median.
    destruct (Z.eqb_spec (Z.of_nat (length times)) 0) as [E0|_]; [lia|].
    unfold wpe at 1, returned at 1. apply wpe_bind.
    destruct times as [|t times]; [cbn in Hlen'; lia|].
    unfold wpe at 1, returned at 1, py_min. apply wpe_ret. now apply HQ.
  - apply wpe_for_each; [split; [reflexivity|constructor]|].
    intros pre x post times s1 _ [Hlen Hruns].
    destruct (clock_returns s1) as (t0 & s2 & E0).
    apply wpe_bind, (wpe_ok _ _ _ _ _ _ E0).
    apply wpe_bind, wpe_run; [exact Hf|]. intros u s3 Ef.
    destruct (clock_returns s3) as (t1 & s4 & E1).
    apply wpe_bind, (wpe_ok _ _ _ _ _ _ E1).
    apply wpe_ret. split.
    + rewrite !length_app, Hlen. reflexivity.
    + now apply (timed_more _ _ s times s1 t0 s2 u s3 t1 s4).
Qed.

Lemma dc_benchmark_spec s :
  wpe (dc_benchmark G P)
      (fun dc_results s' =>
         exists log, dc_results = results_of log /\
                     measurements (dc_measurement G P) DC_SIZES s log s')
      R s.
Proof.
  unfold dc_benchmark.
  pose (I := fun (pre : list Z) (dc_results : dict float) s' =>
               exists log, dc_results = results_of log /\
                           measurements (dc_measurement G P) pre s log s').
  change (wpe (for_each DC_SIZES
                 (fun n dc_results =>
                    '(n_buses, lines, generators, loads) <-
                      on_heap G P (generate_network G n 42);;
                    net <- build_pypsa_network G P n_buses lines generators
                             loads 1e6%float;;
                    let n_runs := dc_runs n in
                    '(med, mn) <- time_median G P (on_world G P (lpf P net))
                                    n_runs;;
                    ret (dict_set dc_results n (med * 1000.0)%float)) [])
              (I ([] ++ DC_SIZES)) R s).
  apply wpe_for_each; [exists []; split; [reflexivity|constructor]|].
  intros pre n post dc_results s1 Heq (log & -> & Hlog).
  destruct (loop_element_new _ _ _ _ NoDup_DC_SIZES Heq) as [Hin Hnew].
  assert (Hn : 2 <= n) by (cbn in Hin; lia).
  destruct (generate_network_returns n 42 s1 Hn ltac:(lia))
    as (lines & generators & loads & s2 & E1).
  apply wpe_bind, (wpe_ok _ _ _ _ _ _ E1).
  apply wpe_bind, wpe_run; [apply raises_in_build|]. intros net s3 E2.
  cbv zeta. apply wpe_bind, time_median_spec;
    [apply raises_in_lpf | apply dc_runs_pos |].
  intros times mn s4 Hlen Hruns _. apply wpe_ret.
  exists (log ++ [(n, times)]). split.
  - apply results_snoc. now rewrite (measurements_sizes _ _ _ _ _ Hlog).
  - apply measurements_more with (s1 := s1); [exact Hlog|].
    now exists lines, generators, loads, s2, net, s3.
Qed.

Lemma lopf_benchmark_spec s :
  wpe (lopf_benchmark G P)
      (fun lopf_results s' =>
         exists log, lopf_results = results_of log /\
                     measurements (lopf_measurement G P) LOPF_SIZES s log s')
      R s.
Proof.
  unfold lopf_benchmark.
  pose (I := fun (pre : list Z) (lopf_results : dict float) s' =>
               exists log, lopf_results = results_of log /\
                           measurements (lopf_measurement G P) pre s log s').
  change (wpe (for_each LOPF_SIZES
                 (fun n lopf_results =>
                    '(n_buses, lines, generators, loads) <-
                      on_heap G P (generate_network G n 42);;
                    let n_runs := lopf_runs n in
                    '(med, mn) <- time_median G P
                                    (run_lopf G P n_buses lines generators
                                              loads) n_runs;;
                    ret (dict_set lopf_results n (med * 1000.0)%float)) [])
              (I ([] ++ LOPF_SIZES)) R s).
  apply wpe_for_each; [exists []; split; [reflexivity|constructor]|].
  intros pre n post lopf_results s1 Heq (log & -> & Hlog).
  destruct (loop_element_new _ _ _ _ NoDup_LOPF_SIZES Heq) as [Hin Hnew].
  assert (Hn : 2 <= n) by (cbn in Hin; lia).
  destruct (generate_network_returns n 42 s1 Hn ltac:(lia))
    as (lines & generators & loads & s2 & E1).
  apply wpe_bind, (wpe_ok _ _ _ _ _ _ E1).
  cbv zeta. apply wpe_bind, time_median_spec;
    [apply raises_in_run_lopf | apply lopf_runs_pos |].
  intros times mn s4 Hlen Hruns _. apply wpe_ret.
  exists (log ++ [(n, times)]). split.
  - apply results_snoc. now rewrite (measurements_sizes _ _ _ _ _ Hlog).
  - apply measurements_more with (s1 := s1); [exact Hlog|].
    now exists lines, generators, loads, s2.
Qed.

Lemma written_app f rows1 rows2 s s1 s2 :
  written G P f rows1 s s1 -> written G P f rows2 s1 s2 ->
  written G P f (rows1 ++ rows2) s s2.
Proof.
  induction 1 as [|r rows s s' s1 E _ IH]; intros H2; [exact H2|].
  cbn [app]. apply written_more with (s1 := s'); [exact E|now apply IH].
Qed.

(** Writing the rows of one module: one row for each entry, in order. *)
Lemma write_rows_spec module (d : dict float) f log : forall s,
  (forall e, In e log ->
             dict_lookup d (fst e)
             = Some (median_value (snd e) * 1000.0)%float) ->
  wpe (for_each (map fst log)
         (fun n _ =>
            v <- dict_item G P d n;;
            on_world G P (writerow P f [Str module; Int n; Flt v])) tt)
      (fun _ s' => written G P f (rows_of module log) s s') R s.
Proof.
  induction log as [|e log IH]; intros s Hd; cbn [map for_each rows_of].
  - apply wpe_ret. constructor.
  - apply wpe_bind, wpe_bind. unfold dict_item at 1.
    rewrite (Hd e) by now left. apply wpe_ret.
    apply wpe_run; [apply raises_in_writerow|]. intros [] s1 E.
    apply wpe_mono with (Q := fun _ s' => written G P f (rows_of module log) s1 s').
    + intros _ s2 Hw. now apply written_more with (s1 := s1).
    + apply IH. intros e' He'. apply Hd. now right.
Qed.

Lemma write_csv_spec dc lopf s :
  map fst dc = DC_SIZES -> map fst lopf = LOPF_SIZES ->
  wpe (write_csv G P (results_of dc) (results_of lopf))
      (fun _ s' =>
         exists f s3 s4,
           on_world G P (open_file P "results/python_benchmark.csv"%string
                                   "w"%string EmptyString) s = Ok (f, s3) /\
           written G P f
                   ([Str "module"%string; Str "n_buses"%string;
                     Str "time_ms"%string]
                      :: rows_of "DC_PF" dc ++ rows_of "LOPF" lopf) s3 s4 /\
           on_world G P (close P f) s4 = Ok (tt, s'))
      R s.
Proof.
  intros Hdc Hlopf. unfold write_csv. rewrite <- Hdc, <- Hlopf.
  apply wpe_bind, wpe_run; [apply raises_in_open|]. intros f s3 Eo.
  apply wpe_bind, wpe_run; [apply raises_in_writerow|]. intros [] s4 Eh.
  apply wpe_bind.
  apply wpe_mono with
    (Q := fun _ s' => written G P f (rows_of "DC_PF" dc) s4 s').
  2:{ apply write_rows_spec. intros e. apply results_lookup.
      rewrite Hdc. apply NoDup_DC_SIZES. }
  intros _ s5 Hw1. apply wpe_bind.
  apply wpe_mono with
    (Q := fun _ s' => written G P f (rows_of "LOPF" lopf) s5 s').
  2:{ apply write_rows_spec. intros e. apply results_lookup.
      rewrite Hlopf. apply NoDup_LOPF_SIZES. }
  intros _ s6 Hw2.
  apply wpe_run; [apply raises_in_close|]. intros [] s7 Ec.
  exists f, s3, s6. split; [exact Eo|]. split; [|exact Ec].
  apply written_more with (s1 := s4); [exact Eh|].
  now apply written_app with (s1 := s5).
Qed.

Hypothesis P_clock : clock_finite P.

(** The clock reads a finite number. *)
Lemma clock_reading s t s' :
  clock G P s = Ok (t, s') -> is_finite t = true.
Proof.
  destruct s as [h w]. unfold clock, on_world.
  pose proof (P_clock w) as Hf.
  destruct (perf_counter P w) as [t' w']. intros [= <- _]. exact Hf.
Qed.

(** Measured durations are numbers. *)
Lemma timed_runs_numbers func s times s' :
  timed_runs (clock G P) func s times s' -> Forall not_nan times.
Proof.
  induction 1 as [|s times s1 t0 s2 u s3 t1 s4 _ IH E0 _ E1]; [constructor|].
  apply Forall_app. split; [exact IH|].
  constructor; [|constructor].
  apply sub_not_nan; [exact (clock_reading _ _ _ E1)|exact (clock_reading _ _ _ E0)].
Qed.

Lemma timed_runs_usable func runs s times s' :
  0 < runs -> Z.of_nat (length times) = runs ->
  timed_runs (clock G P) func s times s' ->
  times <> [] /\ Forall not_nan times.
Proof.
  intros Hr Hlen Hruns. split; [|exact (timed_runs_numbers _ _ _ _ Hruns)].
  intros ->. cbn in Hlen. lia.
Qed.

(** The whole script. *)
Lemma benchmark_spec s :
  match benchmark G P s with
  | Ok (_, s') => benchmark_run G P s s'
  | Raise e => platform_raises P e
  end.
Proof.
  change (wpe (benchmark G P) (fun _ s' => benchmark_run G P s s') R s).
  unfold benchmark.
  apply wpe_bind. eapply wpe_mono; [|apply dc_benchmark_spec].
  intros dc_results s1 (dc & -> & Hdc). cbv beta.
  apply wpe_bind. eapply wpe_mono; [|apply lopf_benchmark_spec].
  intros lopf_results s2 (lopf & -> & Hlopf). cbv beta.
  eapply wpe_mono;
    [|apply write_csv_spec;
      [exact (measurements_sizes _ _ _ _ _ Hdc)
      |exact (measurements_sizes _ _ _ _ _ Hlopf)]].
  intros _ s' (f & s3 & s4 & Eo & Hw & Ec). cbv beta.
  exists dc, lopf, s1, s2, f, s3, (rows_of "DC_PF" dc), (rows_of "LOPF" lopf), s4.
  repeat (split; [assumption|]).
  split; [|split; [|split; assumption]].
  - apply rows_of_medians.
    eapply measurements_Forall; [|exact Hdc].
    intros n s0 times s0' (? & ? & ? & ? & ? & ? & _ & _ & Hruns & Hlen).
    exact (timed_runs_usable _ _ _ _ _ (dc_runs_pos n) Hlen Hruns).
  - apply rows_of_medians.
    eapply measurements_Forall; [|exact Hlopf].
    intros n s0 times s0' (? & ? & ? & ? & _ & Hruns & Hlen).
    exact (timed_runs_usable _ _ _ _ _ (lopf_runs_pos n) Hlen Hruns).
Qed.

End ScriptProofs.

Lemma sf_is_finite x :
  match Prim2SF x with
  | S754_zero _ | S754_finite _ _ _ => True
  | _ => False
  end -> is_finite x = true.
Proof.
unfold is_finite, is_nan, is_infinity.
rewrite !eqb_spec, abs_spec.
change (Prim2SF infinity) with (S754_infinity false).
destruct (Prim2SF x) as [s|s| |s m e]; try contradiction; intros _.
- reflexivity.
- unfold SFeqb, SFabs. cbn [SFcompare].
  rewrite Z.compare_refl, Pos.compare_cont_refl.
  now destruct s.
Qed.

(** An integer of 63 bits converts to a finite number. *)
Lemma of_uint63_finite n : is_finite (of_uint63 n) = true.
Proof.
apply sf_is_finite. rewrite of_uint63_spec.
pose proof (Uint63.to_Z_bounded n) as Hn.
change Uint63.wB with (2 ^ 63) in Hn.
destruct (Uint63.to_Z n) as [|m|m]; [exact I| |lia].
cbn [binary_normalize].
assert (Hnn : sf_nonneg (binary_round prec emax false m 0)).
{ unfold binary_round. destruct (shl_align m 0 _) as [mz ez].
  apply binary_round_aux_nonneg. lia. }
assert (Hle : SFleb (binary_round prec emax false m 0)
                    (S754_finite false 4503599627370496 11) = true).
{ apply (binary_round_bracket 1074 m 0 4503599627370496 11);
    [lia|lia|reflexivity|].
  apply Z.le_trans with (2 ^ 63 * 2 ^ (0 + 1074)).
  - apply Z.mul_le_mono_nonneg_r; [apply Z.pow_nonneg|]; lia.
  - vm_compute. discriminate. }
destruct (binary_round prec emax false m 0) as [s|s| |s m' e'];
  try exact I; cbn [sf_nonneg] in Hnn; [|contradiction].
subst s. discriminate Hle.
Qed.

Lemma stopwatch_clock : clock_finite Stopwatch.platform.
Proof. intros [ticks rows]. apply of_uint63_finite. Qed.


